(** * EBS volume swap with snapshot: a shallow embedding of
      [ec2ebs/EBSVolumeSwapWithSnap.py] and the properties of its
      locator, tag merger, audit recorder, swap worker and driver. *)

From Stdlib Require Import ZArith Ascii String.
From stdpp Require Import base gmap strings list fin_maps pretty.

Local Open Scope string_scope.
Local Open Scope list_scope.

(** ** Python strings

    A Python [str] is modelled as a [string] whose characters are the code
    points 0..255; [is_space] is [str.isspace] restricted to that range. *)

Module PyStr.

Definition is_space (c : ascii) : bool :=
  let n := N_of_ascii c in
  ((9 <=? n) && (n <=? 13) || (28 <=? n) && (n <=? 32)
   || (n =? 133) || (n =? 160))%N.

(** [s.lstrip()] *)
Fixpoint lstrip (s : string) : string :=
  match s with
  | EmptyString => EmptyString
  | String c s' => if is_space c then lstrip s' else s
  end.

(** [s.rstrip()] *)
Fixpoint rstrip (s : string) : string :=
  match s with
  | EmptyString => EmptyString
  | String c s' =>
      match rstrip s' with
      | EmptyString => if is_space c then EmptyString else String c EmptyString
      | r => String c r
      end
  end.

(** [s.strip()] *)
Definition strip (s : string) : string := rstrip (lstrip s).

(** [s.split(d)] for a one-character separator [d]. *)
Fixpoint split (d : ascii) (s : string) : list string :=
  match s with
  | EmptyString => [EmptyString]
  | String c s' =>
      if decide (c = d) then EmptyString :: split d s'
      else match split d s' with
           | [] => [String c EmptyString]
           | t :: ts => String c t :: ts
           end
  end.

(** [d.join(ts)] *)
Fixpoint join (d : string) (ts : list string) : string :=
  match ts with
  | [] => EmptyString
  | [t] => t
  | t :: ts' => t +:+ d +:+ join d ts'
  end.

(** Truthiness of a [str]: the empty string is falsy. *)
Definition truthy (s : string) : bool :=
  match s with EmptyString => false | _ => true end.

(** [str(o)] for a value that is a [str] or [None]. *)
Definition str_opt (o : option string) : string :=
  match o with Some s => s | None => "None" end.

(** [c in s] *)
Fixpoint contains (c : ascii) (s : string) : bool :=
  match s with
  | EmptyString => false
  | String c' s' => if decide (c' = c) then true else contains c s'
  end.

End PyStr.

(** ** Tags and [merge_tags] *)

Record Tag := mkTag { Key : string; Value : string }.

#[global] Instance Tag_eq_dec : EqDecision Tag.
Proof. solve_decision. Defined.

(** A Python [dict] with [str] keys keeps its entries in insertion order;
    assigning to a key that is present replaces the value in place. *)
Definition pydict := list (string * string).

Fixpoint dict_set (k v : string) (d : pydict) : pydict :=
  match d with
  | [] => [(k, v)]
  | (k', v') :: d' =>
      if decide (k' = k) then (k', v) :: d' else (k', v') :: dict_set k v d'
  end.

Definition dict_of_tags (tags : list Tag) (d : pydict) : pydict :=
  fold_left (fun d tag => dict_set (Key tag) (Value tag) d) tags d.

Definition merge_tags (base_tags new_tags : list Tag) : list Tag :=
  let tag_dict := dict_of_tags base_tags [] in
  let tag_dict := dict_of_tags new_tags tag_dict in
  map (fun kv => {| Key := kv.1; Value := kv.2 |}) tag_dict.

(** The mapping a tag list denotes: a later entry for a key replaces an
    earlier one. *)
Definition tag_map (tags : list Tag) : gmap string string :=
  fold_left (fun m tag => <[Key tag := Value tag]> m) tags ∅.

(** Value of the last entry of [tags] whose key is [k]. *)
Fixpoint last_value (k : string) (tags : list Tag) : option string :=
  match tags with
  | [] => None
  | t :: ts =>
      match last_value k ts with
      | Some v => Some v
      | None => if decide (Key t = k) then Some (Value t) else None
      end
  end.

(** Mapping semantics of the spec's tag merger: start from the base
    mapping and apply every override entry. *)
Definition merge_spec (base_tags override_tags : list Tag) : gmap string string :=
  fold_left (fun m tag => <[Key tag := Value tag]> m) override_tags (tag_map base_tags).

(** ** Data model: EC2 responses and audit rows *)

(** [response["Reservations"][..]["Instances"][..]["BlockDeviceMappings"][..]];
    [DeviceName], [Ebs] and [VolumeId] are read with [.get], so each may be
    missing; a missing list-valued key ([BlockDeviceMappings],
    [SecurityGroups], [Tags]) reads as the empty list. *)
Record EbsInfo := { VolumeId : option string }.
Record Mapping := { DeviceName : option string; Ebs : option EbsInfo }.
Record SecurityGroup := { GroupName : string }.
Record InstanceDesc := {
  BlockDeviceMappings : list Mapping;
  SecurityGroups : list SecurityGroup;
  Tags : list Tag
}.
Record Reservation := { Instances : list InstanceDesc }.
Record DescribeInstancesResponse := { Reservations : list Reservation }.

(** The dictionaries [{"volume_id": .., "device_name": ..}] built by the
    locators. *)
Record VolumeRef := { volume_id : option string; device_name : option string }.

(** Attributes of [ec2_resource.Volume(volume_id)] after [load()]. *)
Record Volume := {
  v_availability_zone : string;
  v_size : Z;
  v_iops : option Z;
  v_throughput : option Z;
  v_volume_type : string;
  v_encrypted : bool;
  v_kms_key_id : option string;
  v_tags : option (list Tag)
}.

(** Keyword arguments of [ec2.create_volume]. *)
Record CreateVolumeRequest := {
  SnapshotId : string;
  AvailabilityZone : string;
  VolumeType : string;
  Encrypted : bool;
  Iops : Z;
  Throughput : Z;
  Size : Z;
  KmsKeyId : option string;
  TagSpecifications : list Tag
}.

(** Item of table [EBSVolumeSwapBeforeSnapshot], keyed by [old_volume_id]. *)
Record OldItem := {
  o_old_volume_id : option string;
  o_name : string;
  o_instancename : string;
  o_instance_id : string;
  o_devicename : option string;
  o_size : Z;
  o_iops : Z;
  o_throughput : Z;
  o_snapshotid : string;
  o_timestamp : string
}.

(** Item of table [EBSVolumeSwapApplySnapshot], keyed by [new_volume]. *)
Record NewItem := {
  n_new_volume : string;
  n_source_snapshot : string;
  n_instance_id : string;
  n_instancename : string;
  n_devicename : option string;
  n_size : Z;
  n_iops : Z;
  n_throughput : Z;
  n_volume_type : string;
  n_availability_zone : string;
  n_security_group_names : string;
  n_timestamp : string
}.

(** ** Remote calls, exceptions and the world *)

(** Exceptions a remote call or a Python operation raises; all three are
    subclasses of [Exception]. *)
Inductive exn :=
| WaiterError (msg : string)
| ClientError (msg : string)
| OtherError (msg : string).

Definition exn_msg (e : exn) : string :=
  match e with WaiterError m | ClientError m | OtherError m => m end.

Inductive Call :=
| describe_instances (InstanceId : string)
| Volume_load (volume : option string)
| create_snapshot (volume : option string) (Description : string)
| wait_snapshot_completed (snapshot : string)
| create_tags (Resource : option string) (tags : list Tag)
| create_volume (request : CreateVolumeRequest)
| wait_volume_available (volume : option string)
| detach_volume (volume : option string) (InstanceId : string) (Force : bool)
| attach_volume (volume : string) (InstanceId : string) (Device : option string)
| old_table_put_item (Item : OldItem)
| new_table_put_item (Item : NewItem).

(** What a call returns when it does not raise: [create_snapshot] and
    [create_volume] return the new resource's id. *)
Definition Response (c : Call) : Type :=
  match c with
  | describe_instances _ => DescribeInstancesResponse
  | Volume_load _ => Volume
  | create_snapshot _ _ => string
  | create_volume _ => string
  | _ => unit
  end.

Inductive Reply (R : Type) := Ok (r : R) | Fail (e : exn).
Arguments Ok {R} r.
Arguments Fail {R} e.

(** One remote call made, and the exception it raised if any. *)
Record Event := { ev_call : Call; ev_raised : option exn }.

(** The collaborators (EC2, DynamoDB, the clock): the reply to a call may
    depend on every call made before it (most recent first). *)
Record Env := {
  respond : list Event -> forall c : Call, Reply (Response c);
  utcnow_isoformat : list Event -> string
}.

(** What [print] was given. *)
Inductive Printed :=
| PStr (s : string)
| PVolumes (vs : list VolumeRef).

Record World := {
  trace : list Event;                          (* most recent first *)
  old_table : gmap (option string) OldItem;
  new_table : gmap string NewItem;
  stdout : list Printed                        (* most recent first *)
}.

Definition log_event (e : Event) (w : World) : World :=
  {| trace := e :: trace w; old_table := old_table w;
     new_table := new_table w; stdout := stdout w |}.

(** [put_item] is an upsert on the item's key attribute. *)
Definition commit (c : Call) (w : World) : World :=
  match c with
  | old_table_put_item item =>
      {| trace := trace w; old_table := <[o_old_volume_id item := item]> (old_table w);
         new_table := new_table w; stdout := stdout w |}
  | new_table_put_item item =>
      {| trace := trace w; old_table := old_table w;
         new_table := <[n_new_volume item := item]> (new_table w); stdout := stdout w |}
  | _ => w
  end.

(** ** Computations: state, exceptions and [sys.exit] *)

Inductive Outcome (A : Type) :=
| Returned (a : A)
| Raised (e : exn)
| Exited (code : Z).          (* [SystemExit], which [except Exception] lets through *)
Arguments Returned {A} a.
Arguments Raised {A} e.
Arguments Exited {A} code.

Definition M (A : Type) : Type := World -> Outcome A * World.

Definition ret {A} (a : A) : M A := fun w => (Returned a, w).

Definition bind {A B} (m : M A) (k : A -> M B) : M B := fun w =>
  match m w with
  | (Returned a, w') => k a w'
  | (Raised e, w') => (Raised e, w')
  | (Exited n, w') => (Exited n, w')
  end.

Definition raise {A} (e : exn) : M A := fun w => (Raised e, w).

Definition sys_exit {A} (code : Z) : M A := fun w => (Exited code, w).

(** [try: body except ...: handler]; a handler that does not match the
    exception re-raises it. *)
Definition try_except {A} (body : M A) (handler : exn -> M A) : M A := fun w =>
  match body w with
  | (Raised e, w') => handler e w'
  | r => r
  end.

Definition print (s : string) : M unit := fun w =>
  (Returned tt, {| trace := trace w; old_table := old_table w;
                   new_table := new_table w; stdout := PStr s :: stdout w |}).

Definition print_volumes (vs : list VolumeRef) : M unit := fun w =>
  (Returned tt, {| trace := trace w; old_table := old_table w;
                   new_table := new_table w; stdout := PVolumes vs :: stdout w |}).

Notation "'do' x <- m ; k" := (bind m (fun x => k))
  (at level 10, x name, m at level 100, k at level 200).
Notation "m ;;; k" := (bind m (fun _ => k))
  (at level 100, k at level 200, right associativity).

Fixpoint for_each {A} (xs : list A) (body : A -> M unit) : M unit :=
  match xs with
  | [] => ret tt
  | x :: xs' => body x ;;; for_each xs' body
  end.

(** [ThreadPoolExecutor.map(fn, xs)]: every item is submitted; the pool's
    work item catches whatever [fn] raises, [SystemExit] included, and
    stores it in the item's future, so the call itself never raises.  The
    items are run here in submission order. *)
Fixpoint executor_map {A B} (fn : A -> M B) (xs : list A) : M (list (Outcome B)) :=
  match xs with
  | [] => ret []
  | x :: xs' => fun w =>
      let (future, w1) := fn x w in
      match executor_map fn xs' w1 with
      | (Returned futures, w2) => (Returned (future :: futures), w2)
      | r => r
      end
  end.

(** Exit status of the interpreter when the main module finishes with the
    given outcome. *)
Definition exit_code {A} (r : Outcome A) : Z :=
  match r with
  | Returned _ => 0
  | Raised _ => 1
  | Exited n => n
  end.

Definition or_zero (o : option Z) : Z :=
  match o with Some z => z | None => 0 end.

(** [x in l] for [x] a [str] or [None] and [l] a list of [str]. *)
Definition py_in (x : option string) (l : list string) : bool :=
  match x with
  | Some s => bool_decide (s ∈ l)
  | None => false
  end.

Definition EXCLUDE_DEVICES : list string := ["/dev/sda1"; "/dev/xvda"].

Definition OLD_TABLE_NAME : string := "EBSVolumeSwapBeforeSnapshot".
Definition NEW_TABLE_NAME : string := "EBSVolumeSwapApplySnapshot".

(** [[v.strip() for v in volume_ids_csv.strip().split("|") if v.strip()]] *)
Definition parse_volume_ids (volume_ids_csv : string) : list string :=
  map PyStr.strip
    (filter (fun v => PyStr.truthy (PyStr.strip v) = true)
       (PyStr.split "|" (PyStr.strip volume_ids_csv))).

(** The three nested loops over a [describe_instances] response. *)
Definition mappings_of (response : DescribeInstancesResponse) : list Mapping :=
  flat_map (fun reservation =>
    flat_map (fun instance => BlockDeviceMappings instance) (Instances reservation))
    (Reservations response).

Definition mapping_volume_id (mapping : Mapping) : option string :=
  match Ebs mapping with
  | Some ebs => VolumeId ebs
  | None => None
  end.

Definition volume_ref_of (mapping : Mapping) : VolumeRef :=
  {| volume_id := mapping_volume_id mapping; device_name := DeviceName mapping |}.

Section Program.

Variable env : Env.
Variables REGION INSTANCE_ID : string.
(** [args.volume_ids]; [None] stands for an argument that is absent. *)
Variable volume_ids_csv : option string.

Definition call (c : Call) : M (Response c) := fun w =>
  match respond env (trace w) c with
  | Ok r => (Returned r, commit c (log_event {| ev_call := c; ev_raised := None |} w))
  | Fail e => (Raised e, log_event {| ev_call := c; ev_raised := Some e |} w)
  end.

Definition utcnow : M string := fun w =>
  (Returned (utcnow_isoformat env (trace w)), w).

(** [size], [iops] and [throughput] are integers, on which [int] is the
    identity; the item is built, clock read included, inside the [try]. *)
Definition record_old_volume (volume_id : option string) (instance_id instance_name : string)
    (device_name : option string) (size iops throughput : Z) (snapshot_id : string) : M unit :=
  try_except
    (do timestamp <- utcnow;
     call (old_table_put_item
             {| o_old_volume_id := volume_id;
                o_name := "OLD-" +:+ PyStr.str_opt volume_id;
                o_instancename := instance_name;
                o_instance_id := instance_id;
                o_devicename := device_name;
                o_size := size;
                o_iops := iops;
                o_throughput := throughput;
                o_snapshotid := snapshot_id;
                o_timestamp := timestamp |}) ;;;
     print ("[INFO] Logged OLD volume " +:+ PyStr.str_opt volume_id +:+ " into DynamoDB."))
    (fun e =>
       print ("[ERROR] Failed to log old volume " +:+ PyStr.str_opt volume_id
              +:+ ": " +:+ exn_msg e)).

Definition record_new_volume (new_volume_id snapshot_id instance_id instance_name : string)
    (device_name : option string) (size iops throughput : Z)
    (volume_type az sg_names : string) : M unit :=
  try_except
    (do timestamp <- utcnow;
     call (new_table_put_item
             {| n_new_volume := new_volume_id;
                n_source_snapshot := snapshot_id;
                n_instance_id := instance_id;
                n_instancename := instance_name;
                n_devicename := device_name;
                n_size := size;
                n_iops := iops;
                n_throughput := throughput;
                n_volume_type := volume_type;
                n_availability_zone := az;
                n_security_group_names := sg_names;
                n_timestamp := timestamp |}) ;;;
     print ("[INFO] Logged NEW volume " +:+ new_volume_id +:+ " into DynamoDB."))
    (fun e =>
       print ("[ERROR] Failed to log new volume " +:+ new_volume_id
              +:+ ": " +:+ exn_msg e)).

Definition get_filtered_attached_volumes (instance_id : string) (volume_ids_csv : string)
    : M (list VolumeRef) :=
  try_except
    (let volume_ids := parse_volume_ids volume_ids_csv in
     do response <- call (describe_instances instance_id);
     ret (map volume_ref_of
            (filter (fun mapping =>
                       negb (py_in (DeviceName mapping) EXCLUDE_DEVICES)
                       && py_in (mapping_volume_id mapping) volume_ids = true)
               (mappings_of response))))
    (fun e =>
       match e with
       | ClientError msg =>
           print ("[ERROR] Unable to fetch volumes for instance " +:+ instance_id
                  +:+ ": " +:+ msg) ;;;
           ret []
       | _ => raise e
       end).

Definition get_attached_volumes (instance_id : string) : M (list VolumeRef) :=
  try_except
    (do response <- call (describe_instances instance_id);
     ret (map volume_ref_of
            (filter (fun mapping =>
                       negb (py_in (DeviceName mapping) EXCLUDE_DEVICES) = true)
               (mappings_of response))))
    (fun e =>
       match e with
       | ClientError msg =>
           print ("[ERROR] Unable to fetch volumes for instance " +:+ instance_id
                  +:+ ": " +:+ msg) ;;;
           ret []
       | _ => raise e
       end).

(** [response["Reservations"][0]["Instances"][0]] *)
Definition first_instance (response : DescribeInstancesResponse) : M InstanceDesc :=
  match Reservations response with
  | [] => raise (OtherError "list index out of range")
  | reservation :: _ =>
      match Instances reservation with
      | [] => raise (OtherError "list index out of range")
      | instance :: _ => ret instance
      end
  end.

(** [next((tag["Value"] for tag in tags if tag["Key"] == "Name"), "Unknown")] *)
Fixpoint name_of (tags : list Tag) : string :=
  match tags with
  | [] => "Unknown"
  | tag :: tags' => if decide (Key tag = "Name") then Value tag else name_of tags'
  end.

Definition snapshot_and_swap (volume_info : VolumeRef) : M unit :=
  let volume_id := volume_id volume_info in
  let device_name := device_name volume_info in
  try_except
    (print ("[INFO] Processing volume " +:+ PyStr.str_opt volume_id
            +:+ " (" +:+ PyStr.str_opt device_name +:+ ")") ;;;
     do volume <- call (Volume_load volume_id);
     let az := v_availability_zone volume in
     let size := v_size volume in
     let iops := or_zero (v_iops volume) in
     let throughput := or_zero (v_throughput volume) in
     let volume_type := v_volume_type volume in
     let encrypted := v_encrypted volume in
     let kmskey := v_kms_key_id volume in
     let tags := default [] (v_tags volume) in
     do response <- call (describe_instances INSTANCE_ID);
     do instance_info <- first_instance response;
     let sg_names := PyStr.join "," (map GroupName (SecurityGroups instance_info)) in
     let name_tag := name_of (Tags instance_info) in
     do snapshot_id <- call (create_snapshot volume_id
                               ("Snapshot of " +:+ PyStr.str_opt volume_id +:+ " before swap"));
     print ("[INFO] Snapshot " +:+ snapshot_id +:+ " initiated.") ;;;
     print ("[INFO] KMS Key used: " +:+ PyStr.str_opt kmskey) ;;;
     call (wait_snapshot_completed snapshot_id) ;;;
     print ("[INFO] Snapshot " +:+ snapshot_id +:+ " completed.") ;;;
     let snapshot_tags := merge_tags tags [
       mkTag "Name" ("Snapshot-of-" +:+ PyStr.str_opt volume_id);
       mkTag "device_name" (PyStr.str_opt device_name);
       mkTag "VolumeType" volume_type;
       mkTag "Size" (pretty size);
       mkTag "IOPS" (pretty iops);
       mkTag "Throughput" (pretty throughput);
       mkTag "AvailabilityZone" az;
       mkTag "SecurityGroupName" sg_names;
       mkTag "kms_key_id" (PyStr.str_opt kmskey)
     ] in
     call (create_tags (Some snapshot_id) snapshot_tags) ;;;
     record_old_volume volume_id INSTANCE_ID name_tag device_name size iops throughput
       snapshot_id ;;;
     let extra_tags := merge_tags tags [
       mkTag "Name" ("Recreated-" +:+ PyStr.str_opt volume_id);
       mkTag "SourceSnapshot" snapshot_id
     ] in
     do new_volume_id <- call (create_volume
                                 {| SnapshotId := snapshot_id;
                                    AvailabilityZone := az;
                                    VolumeType := volume_type;
                                    Encrypted := encrypted;
                                    Iops := iops;
                                    Throughput := throughput;
                                    Size := size;
                                    KmsKeyId := kmskey;
                                    TagSpecifications := extra_tags |});
     print ("[INFO] New volume " +:+ new_volume_id +:+ " creation started...") ;;;
     call (wait_volume_available (Some new_volume_id)) ;;;
     print ("[INFO] New volume " +:+ new_volume_id +:+ " is now available.") ;;;
     record_new_volume new_volume_id snapshot_id INSTANCE_ID name_tag device_name
       size iops throughput volume_type az sg_names ;;;
     print ("[INFO] Detaching old volume " +:+ PyStr.str_opt volume_id +:+ "...") ;;;
     call (detach_volume volume_id INSTANCE_ID true) ;;;
     call (wait_volume_available volume_id) ;;;
     print ("[INFO] Old volume " +:+ PyStr.str_opt volume_id +:+ " detached.") ;;;
     print ("[INFO] Attaching new volume " +:+ new_volume_id +:+ " to device "
            +:+ PyStr.str_opt device_name +:+ "...") ;;;
     call (attach_volume new_volume_id INSTANCE_ID device_name) ;;;
     call (create_tags volume_id [mkTag "Name" ("OLD-" +:+ PyStr.str_opt volume_id)]) ;;;
     print ("[SUCCESS] Volume " +:+ PyStr.str_opt volume_id +:+ " swapped with "
            +:+ new_volume_id +:+ " using snapshot " +:+ snapshot_id
            +:+ ". Size: " +:+ pretty size +:+ " GiB"))
    (fun e =>
       match e with
       | WaiterError we =>
           print ("[ERROR] Waiter failed for volume " +:+ PyStr.str_opt volume_id
                  +:+ ": " +:+ we) ;;;
           sys_exit 1
       | ClientError e =>
           print ("[ERROR] AWS client error on volume " +:+ PyStr.str_opt volume_id
                  +:+ ": " +:+ e) ;;;
           sys_exit 1
       | OtherError ex =>
           print ("[ERROR] Unexpected error on volume " +:+ PyStr.str_opt volume_id
                  +:+ ": " +:+ ex) ;;;
           sys_exit 1
       end).

(** The test of [main] that chooses between the two locators. *)
Definition use_filter (volume_ids_csv : option string) : bool :=
  match volume_ids_csv with
  | None => false
  | Some s =>
      PyStr.truthy s && negb (bool_decide (s = "AllVolumes"))
      && PyStr.truthy (PyStr.strip s)
  end.

(** Lines 264-269 of [main]: the volumes [main] binds to [all_volumes]. *)
Definition locate_volumes : M (list VolumeRef) :=
  if use_filter volume_ids_csv then
    do all_volumes <- get_filtered_attached_volumes INSTANCE_ID (default "" volume_ids_csv);
    print "filtered volume ids" ;;;
    ret all_volumes
  else
    do all_volumes <- get_attached_volumes INSTANCE_ID;
    print "All volumes" ;;;
    ret all_volumes.

(** Lines 271-284 of [main]: what [main] does with [all_volumes]. *)
Definition process_volumes (all_volumes : list VolumeRef) : M unit :=
  print_volumes all_volumes ;;;
  match all_volumes with
  | [] => print "[WARN] No eligible volumes found."
  | _ =>
      print "[INFO] The following volumes will be processed:" ;;;
      for_each all_volumes (fun v =>
        print ("  - " +:+ PyStr.str_opt (volume_id v) +:+ " ("
               +:+ PyStr.str_opt (device_name v) +:+ ")")) ;;;
      do futures <- executor_map snapshot_and_swap all_volumes;
      print "[INFO] All volume operations completed."
  end.

Definition main : M unit :=
  print "Inside script" ;;;
  print REGION ;;;
  print INSTANCE_ID ;;;
  print (PyStr.str_opt volume_ids_csv) ;;;
  do all_volumes <- locate_volumes;
  process_volumes all_volumes.

(** Exit status of the script. *)
Definition run_script (w : World) : Z := exit_code (main w).1.

End Program.

(** ** Reading of the filter string and of eligibility in the spec's words *)

(** Strip every token and ignore the empty ones. *)
Definition kept_tokens (ts : list string) : list string :=
  filter (fun t => t ≠ "") (map PyStr.strip ts).

(** A token that can stand between two delimiters. *)
Definition bar_free (t : string) : Prop := PyStr.contains "|" t = false.

(** The device is one of the excluded root/boot devices. *)
Definition device_excluded (device : option string) : Prop :=
  ∃ d, device = Some d ∧ d ∈ EXCLUDE_DEVICES.

(** The volume id is one of the requested identifiers. *)
Definition id_requested (ids : list string) (volume : option string) : Prop :=
  ∃ v, volume = Some v ∧ v ∈ ids.

#[global] Instance device_excluded_dec device : Decision (device_excluded device).
Proof.
  refine (match device with
          | Some d => cast_if (decide (d ∈ EXCLUDE_DEVICES))
          | None => right _
          end); unfold device_excluded; naive_solver.
Defined.

#[global] Instance id_requested_dec ids volume : Decision (id_requested ids volume).
Proof.
  refine (match volume with
          | Some v => cast_if (decide (v ∈ ids))
          | None => right _
          end); unfold id_requested; naive_solver.
Defined.

(** The attachments of a response whose device is not excluded, in
    enumeration order, and those among them whose volume id is requested. *)
Definition not_excluded (response : DescribeInstancesResponse) : list VolumeRef :=
  map volume_ref_of
    (filter (fun m => ¬ device_excluded (DeviceName m)) (mappings_of response)).

Definition not_excluded_and_requested (ids : list string)
    (response : DescribeInstancesResponse) : list VolumeRef :=
  map volume_ref_of
    (filter (fun m => ¬ device_excluded (DeviceName m)
                      ∧ id_requested ids (mapping_volume_id m))
       (mappings_of response)).

(** [f] applied to the first, respectively the last, element of a list. *)
Definition on_first {A} (f : A -> A) (l : list A) : list A :=
  match l with
  | [] => []
  | x :: l' => f x :: l'
  end.

Fixpoint on_last {A} (f : A -> A) (l : list A) : list A :=
  match l with
  | [] => []
  | [x] => [f x]
  | x :: l' => x :: on_last f l'
  end.

(** ** Kinds of events *)

Definition is_attach (ev : Event) : bool :=
  match ev_call ev with attach_volume _ _ _ => true | _ => false end.

Definition is_create_volume (ev : Event) : bool :=
  match ev_call ev with create_volume _ => true | _ => false end.

Definition is_old_put (ev : Event) : bool :=
  match ev_call ev with old_table_put_item _ => true | _ => false end.

Definition is_new_put (ev : Event) : bool :=
  match ev_call ev with new_table_put_item _ => true | _ => false end.

(** A call that succeeded. *)
Definition ok (c : Call) : Event := {| ev_call := c; ev_raised := None |}.

(** A call that raised [e]. *)
Definition failed (c : Call) (e : exn) : Event := {| ev_call := c; ev_raised := Some e |}.

(** ** Concrete scenarios *)

Module Scenario.

Definition root_mapping : Mapping :=
  {| DeviceName := Some "/dev/xvda"; Ebs := Some {| VolumeId := Some "vol-0" |} |}.
Definition sdf_mapping : Mapping :=
  {| DeviceName := Some "/dev/sdf"; Ebs := Some {| VolumeId := Some "vol-1" |} |}.
Definition sdg_mapping : Mapping :=
  {| DeviceName := Some "/dev/sdg"; Ebs := Some {| VolumeId := Some "vol-2" |} |}.

Definition instance : InstanceDesc :=
  {| BlockDeviceMappings := [root_mapping; sdf_mapping; sdg_mapping];
     SecurityGroups := [{| GroupName := "web" |}];
     Tags := [mkTag "Name" "app-server"] |}.

Definition response : DescribeInstancesResponse :=
  {| Reservations := [{| Instances := [instance] |}] |}.

Definition volume : Volume :=
  {| v_availability_zone := "us-east-1a"; v_size := 100; v_iops := Some 3000%Z;
     v_throughput := Some 125%Z; v_volume_type := "gp3"; v_encrypted := false;
     v_kms_key_id := None; v_tags := Some [mkTag "Name" "data"] |}.

(** Every call succeeds except those for which [fails] names an exception. *)
Definition env_failing (fails : Call -> option exn) : Env :=
  {| respond := fun _ c =>
       match fails c with
       | Some e => Fail e
       | None =>
           match c return Reply (Response c) with
           | describe_instances _ => Ok response
           | Volume_load _ => Ok volume
           | create_snapshot _ _ => Ok "snap-1"
           | create_volume _ => Ok "vol-new"
           | wait_snapshot_completed _ => Ok tt
           | create_tags _ _ => Ok tt
           | wait_volume_available _ => Ok tt
           | detach_volume _ _ _ => Ok tt
           | attach_volume _ _ _ => Ok tt
           | old_table_put_item _ => Ok tt
           | new_table_put_item _ => Ok tt
           end
       end;
     utcnow_isoformat := fun _ => "2024-01-01T00:00:00" |}.

Definition happy : Env := env_failing (fun _ => None).

Definition snapshot_wait_times_out : Env :=
  env_failing (fun c =>
    match c with
    | wait_snapshot_completed _ => Some (WaiterError "Max attempts exceeded")
    | _ => None
    end).

Definition snapshot_rejected : Env :=
  env_failing (fun c =>
    match c with
    | create_snapshot _ _ => Some (ClientError "UnauthorizedOperation")
    | _ => None
    end).

Definition before_write_fails : Env :=
  env_failing (fun c =>
    match c with
    | old_table_put_item _ => Some (ClientError "ProvisionedThroughputExceededException")
    | _ => None
    end).

Definition after_write_fails : Env :=
  env_failing (fun c =>
    match c with
    | new_table_put_item _ => Some (OtherError "connection reset")
    | _ => None
    end).

Definition volume_load_faults : Env :=
  env_failing (fun c =>
    match c with
    | Volume_load _ => Some (OtherError "'NoneType' object is not subscriptable")
    | _ => None
    end).

Definition w0 : World :=
  {| trace := []; old_table := ∅; new_table := ∅; stdout := [] |}.

Definition vol1 : VolumeRef :=
  {| volume_id := Some "vol-1"; device_name := Some "/dev/sdf" |}.
Definition vol2 : VolumeRef :=
  {| volume_id := Some "vol-2"; device_name := Some "/dev/sdg" |}.

End Scenario.

(** ** Further vocabulary for the properties of the code *)

(** An identifier as the parser produces it: not empty, without
    surrounding whitespace and without the delimiter. *)
Definition clean_id (id : string) : Prop :=
  id ≠ "" ∧ PyStr.strip id = id ∧ bar_free id.

(** The volumes the two locators select from a response, for the filter
    argument [main] was given. *)
Definition eligible_volumes (volume_ids_csv : option string)
    (response : DescribeInstancesResponse) : list VolumeRef :=
  if use_filter volume_ids_csv
  then not_excluded_and_requested (parse_volume_ids (default "" volume_ids_csv)) response
  else not_excluded response.

Module Lookup.

(** The instance lookup is refused by the API. *)
Definition refused : Env :=
  Scenario.env_failing (fun c =>
    match c with
    | describe_instances _ => Some (ClientError "InvalidInstanceID.NotFound")
    | _ => None
    end).

(** The instance lookup dies of something that is no [ClientError]. *)
Definition faults : Env :=
  Scenario.env_failing (fun c =>
    match c with
    | describe_instances _ => Some (OtherError "Could not connect to the endpoint URL")
    | _ => None
    end).

End Lookup.

(** The operation a call invokes. *)
Definition call_name (c : Call) : string :=
  match c with
  | describe_instances _ => "describe_instances"
  | Volume_load _ => "Volume.load"
  | create_snapshot _ _ => "create_snapshot"
  | wait_snapshot_completed _ => "snapshot_completed.wait"
  | create_tags _ _ => "create_tags"
  | create_volume _ => "create_volume"
  | wait_volume_available _ => "volume_available.wait"
  | detach_volume _ _ _ => "detach_volume"
  | attach_volume _ _ _ => "attach_volume"
  | old_table_put_item _ => "old_table.put_item"
  | new_table_put_item _ => "new_table.put_item"
  end.

(** The operations of [snapshot_and_swap] in the order of its body. *)
Definition swap_steps : list string :=
  [ "Volume.load"; "describe_instances"; "create_snapshot"; "snapshot_completed.wait";
    "create_tags"; "old_table.put_item"; "create_volume"; "volume_available.wait";
    "new_table.put_item"; "detach_volume"; "volume_available.wait"; "attach_volume";
    "create_tags" ].

Definition is_audit_write (ev : Event) : bool := is_old_put ev || is_new_put ev.

(** The line the three [except] clauses of [snapshot_and_swap] print. *)
Definition error_line (volume_id : option string) (e : exn) : string :=
  match e with
  | WaiterError we =>
      "[ERROR] Waiter failed for volume " +:+ PyStr.str_opt volume_id +:+ ": " +:+ we
  | ClientError e =>
      "[ERROR] AWS client error on volume " +:+ PyStr.str_opt volume_id +:+ ": " +:+ e
  | OtherError ex =>
      "[ERROR] Unexpected error on volume " +:+ PyStr.str_opt volume_id +:+ ": " +:+ ex
  end.

(** An event that does not stop the worker: a call that succeeded, or an
    audit write whatever became of it. *)
Definition settled (ev : Event) : Prop := ev_raised ev = None ∨ is_audit_write ev.

(** ** The audit tables' bootstrap: [create_table_if_not_exists] *)

Module Bootstrap.

(** Keyword arguments of [dynamodb_client.create_table]: the key schema
    and the attribute definitions as pairs of an attribute name and a key
    type, respectively an attribute type. *)
Record CreateTableRequest := {
  TableName : string;
  KeySchema : list (string * string);
  AttributeDefinitions : list (string * string);
  ReadCapacityUnits : Z;
  WriteCapacityUnits : Z
}.

Inductive TableCall :=
| list_tables
| create_table (request : CreateTableRequest).

(** [list_tables()["TableNames"]], respectively nothing that is read. *)
Definition TableResponse (c : TableCall) : Type :=
  match c with
  | list_tables => list string
  | create_table _ => unit
  end.

Record TableEvent := { t_call : TableCall; t_raised : option exn }.

(** DynamoDB's control plane: a reply may depend on the calls made before
    (most recent first). *)
Record TableEnv := {
  table_respond : list TableEvent -> forall c : TableCall, Reply (TableResponse c)
}.

Record BootWorld := {
  table_trace : list TableEvent;       (* most recent first *)
  console : list string                (* most recent first *)
}.

Definition called (c : TableCall) (raised : option exn) (w : BootWorld) : BootWorld :=
  {| table_trace := {| t_call := c; t_raised := raised |} :: table_trace w;
     console := console w |}.

Definition printed (line : string) (w : BootWorld) : BootWorld :=
  {| table_trace := table_trace w; console := line :: console w |}.

Section WithEnv.

Variable env : TableEnv.

(** The [except ClientError] clause of [create_table_if_not_exists]. *)
Definition except_ClientError (table_name : string) (e : exn) (w : BootWorld)
    : Outcome unit * BootWorld :=
  match e with
  | ClientError msg =>
      (Returned tt,
       printed ("[ERROR] Failed to create table " +:+ table_name +:+ ": " +:+ msg) w)
  | _ => (Raised e, w)
  end.

Definition create_table_if_not_exists (table_name key_name : string) (w : BootWorld)
    : Outcome unit * BootWorld :=
  match table_respond env (table_trace w) list_tables with
  | Fail e => except_ClientError table_name e (called list_tables (Some e) w)
  | Ok existing =>
      let w := called list_tables None w in
      if bool_decide (table_name ∈ existing) then
        (Returned tt, printed ("[INFO] Table '" +:+ table_name +:+ "' already exists.") w)
      else
        let request :=
          {| TableName := table_name;
             KeySchema := [(key_name, "HASH")];
             AttributeDefinitions := [(key_name, "S")];
             ReadCapacityUnits := 26;
             WriteCapacityUnits := 26 |} in
        match table_respond env (table_trace w) (create_table request) with
        | Fail e =>
            except_ClientError table_name e (called (create_table request) (Some e) w)
        | Ok _ =>
            (Returned tt,
             printed ("[INFO] Table '" +:+ table_name +:+ "' created.")
               (called (create_table request) None w))
        end
  end.

(** Lines 52-53 of the script. *)
Definition bootstrap (w : BootWorld) : Outcome unit * BootWorld :=
  match create_table_if_not_exists OLD_TABLE_NAME "old_volume_id" w with
  | (Returned _, w) => create_table_if_not_exists NEW_TABLE_NAME "new_volume" w
  | r => r
  end.

End WithEnv.

(** A successful creation of the table [name]. *)
Definition is_creation (name : string) (ev : TableEvent) : bool :=
  match t_call ev, t_raised ev with
  | create_table request, None => bool_decide (TableName request = name)
  | _, _ => false
  end.

Definition is_create_table (ev : TableEvent) : bool :=
  match t_call ev with create_table _ => true | list_tables => false end.

(** A catalogue that lists every table whose creation succeeded. *)
Definition truthful (env : TableEnv) : Prop :=
  ∀ h names ev,
    table_respond env h list_tables = Ok names →
    ev ∈ h → ∀ name, is_creation name ev = true → name ∈ names.

(** A control plane that keeps the catalogue in the history itself:
    [list_tables] answers the names created so far, [create_table] succeeds
    on a new name and is refused on a name in use. *)
Definition created_names (h : list TableEvent) : list string :=
  omap (fun ev => match t_call ev, t_raised ev with
                  | create_table request, None => Some (TableName request)
                  | _, _ => None
                  end) h.

Definition catalogue : TableEnv :=
  {| table_respond := fun h c =>
       match c return Reply (TableResponse c) with
       | list_tables => Ok (created_names h)
       | create_table request =>
           if bool_decide (TableName request ∈ created_names h)
           then Fail (ClientError "ResourceInUseException")
           else Ok tt
       end |}.

(** A control plane that refuses every call. *)
Definition denied : TableEnv :=
  {| table_respond := fun _ c => Fail (ClientError "AccessDeniedException") |}.

Definition fresh : BootWorld := {| table_trace := []; console := [] |}.

End Bootstrap.

(** ** A volume encrypted under a customer-managed key *)

Module Keyed.

Definition key : string :=
  "arn:aws:kms:us-east-1:111122223333:key/1234abcd-12ab-34cd-56ef-1234567890ab".

Definition volume : Volume :=
  {| v_availability_zone := "us-east-1a"; v_size := 100; v_iops := Some 3000%Z;
     v_throughput := Some 125%Z; v_volume_type := "gp3"; v_encrypted := true;
     v_kms_key_id := Some key; v_tags := Some [mkTag "Name" "data"] |}.

(** Every call succeeds except those for which [fails] names an exception. *)
Definition env_failing (fails : Call -> option exn) : Env :=
  {| respond := fun _ c =>
       match fails c with
       | Some e => Fail e
       | None =>
           match c return Reply (Response c) with
           | describe_instances _ => Ok Scenario.response
           | Volume_load _ => Ok volume
           | create_snapshot _ _ => Ok "snap-1"
           | create_volume _ => Ok "vol-new"
           | wait_snapshot_completed _ => Ok tt
           | create_tags _ _ => Ok tt
           | wait_volume_available _ => Ok tt
           | detach_volume _ _ _ => Ok tt
           | attach_volume _ _ _ => Ok tt
           | old_table_put_item _ => Ok tt
           | new_table_put_item _ => Ok tt
           end
       end;
     utcnow_isoformat := fun _ => "2024-01-01T00:00:00" |}.

Definition before_write_fails : Env :=
  env_failing (fun c =>
    match c with
    | old_table_put_item _ => Some (ClientError "ProvisionedThroughputExceededException")
    | _ => None
    end).

Definition after_write_fails : Env :=
  env_failing (fun c =>
    match c with
    | new_table_put_item _ => Some (ClientError "ResourceNotFoundException")
    | _ => None
    end).

End Keyed.

(** * Properties *)

(** ** The tag merger *)

Example merge_tags_spec_example :
  merge_tags [mkTag "Name" "Old"] [mkTag "Name" "New"; mkTag "Env" "Prod"]
  = [mkTag "Name" "New"; mkTag "Env" "Prod"].
Proof. reflexivity. Qed.

Example merge_tags_duplicate_base :
  merge_tags [mkTag "a" "1"; mkTag "b" "2"; mkTag "a" "3"] []
  = [mkTag "a" "3"; mkTag "b" "2"].
Proof. reflexivity. Qed.

Example strip_example : PyStr.strip "  vol-1 " = "vol-1".
Proof. reflexivity. Qed.

Example split_example : PyStr.split "|" "vol-1| |vol-2|" = ["vol-1"; " "; "vol-2"; ""].
Proof. reflexivity. Qed.

Section MergeTags.

Implicit Types (d : pydict) (tags : list Tag) (k v : string).

Lemma dict_set_to_map k v d :
  (list_to_map (dict_set k v d) : gmap string string) = <[k := v]> (list_to_map d).
Proof.
  induction d as [|[k' v'] d IH]; simpl; [done|].
  case_decide; subst; simpl.
  - by rewrite insert_insert_eq.
  - rewrite IH. by apply insert_insert_ne.
Qed.

Lemma dict_set_keys k v d :
  (dict_set k v d).*1 = if decide (k ∈ d.*1) then d.*1 else d.*1 ++ [k].
Proof.
  induction d as [|[k' v'] d IH]; [done|].
  cbn [dict_set]. destruct (decide (k' = k)) as [->|Hne]; rewrite !fmap_cons; cbn [fst].
  - rewrite decide_True; [done | by left].
  - rewrite IH. destruct (decide (k ∈ d.*1)) as [Hin|Hin].
    + rewrite decide_True; [done | by right].
    + rewrite decide_False; [done|]. rewrite elem_of_cons. naive_solver.
Qed.

Lemma dict_set_NoDup k v d : NoDup d.*1 -> NoDup (dict_set k v d).*1.
Proof.
  intros Hd. rewrite dict_set_keys. case_decide; [done|].
  apply NoDup_app. split_and!; [done | | apply NoDup_singleton].
  intros x Hx ->%list_elem_of_singleton. done.
Qed.

Lemma dict_of_tags_to_map tags d :
  (list_to_map (dict_of_tags tags d) : gmap string string)
  = fold_left (fun m tag => <[Key tag := Value tag]> m) tags (list_to_map d).
Proof.
  revert d. induction tags as [|t tags IH]; intros d; simpl; [done|].
  unfold dict_of_tags in IH. rewrite IH. by rewrite dict_set_to_map.
Qed.

Lemma dict_of_tags_NoDup tags d : NoDup d.*1 -> NoDup (dict_of_tags tags d).*1.
Proof.
  revert d. induction tags as [|t tags IH]; intros d Hd; simpl; [done|].
  apply IH. by apply dict_set_NoDup.
Qed.

Lemma fold_insert_lookup tags (m : gmap string string) k :
  fold_left (fun m tag => <[Key tag := Value tag]> m) tags m !! k
  = match last_value k tags with Some v => Some v | None => m !! k end.
Proof.
  revert m. induction tags as [|t tags IH]; intros m; simpl; [done|].
  rewrite IH. destruct (last_value k tags); [done|].
  case_decide; subst.
  - by rewrite lookup_insert_eq.
  - by rewrite lookup_insert_ne.
Qed.

Lemma tag_map_lookup tags k : tag_map tags !! k = last_value k tags.
Proof.
  unfold tag_map. rewrite fold_insert_lookup, lookup_empty.
  by destruct (last_value k tags).
Qed.

Lemma last_value_None k tags : last_value k tags = None <-> k ∉ map Key tags.
Proof.
  induction tags as [|t tags IH]; simpl.
  - split; [intros _; apply not_elem_of_nil | done].
  - rewrite not_elem_of_cons. destruct (last_value k tags) eqn:E.
    + split; [done|]. intros [_ H]. by apply IH in H.
    + case_decide; subst; split; try done; try naive_solver.
Qed.

Lemma last_value_is_Some k tags : is_Some (last_value k tags) <-> k ∈ map Key tags.
Proof.
  rewrite <- not_eq_None_Some, last_value_None.
  destruct (decide (k ∈ map Key tags)); naive_solver.
Qed.

(** The tags read back from a dictionary denote the dictionary. *)
Lemma tags_of_dict_lookup d k :
  NoDup d.*1 ->
  last_value k (map (fun kv => {| Key := kv.1; Value := kv.2 |}) d)
  = (list_to_map d : gmap string string) !! k.
Proof.
  induction d as [|[k' v'] d IH]; intros Hd; simpl; [done|].
  apply NoDup_cons in Hd as [Hk' Hd]. rewrite IH by done.
  destruct (decide (k' = k)) as [->|Hne].
  - rewrite lookup_insert_eq.
    rewrite (not_elem_of_list_to_map_1 d k) by done. done.
  - rewrite lookup_insert_ne by done. by destruct (list_to_map d !! k).
Qed.

Lemma merge_tags_keys base_tags new_tags :
  map Key (merge_tags base_tags new_tags)
  = (dict_of_tags new_tags (dict_of_tags base_tags [])).*1.
Proof. unfold merge_tags. rewrite map_map. done. Qed.

Lemma merge_tags_NoDup base_tags new_tags :
  NoDup (map Key (merge_tags base_tags new_tags)).
Proof.
  rewrite merge_tags_keys. do 2 apply dict_of_tags_NoDup. apply NoDup_nil_2.
Qed.

Lemma merge_tags_last_value base_tags new_tags k :
  last_value k (merge_tags base_tags new_tags)
  = match last_value k new_tags with
    | Some v => Some v
    | None => last_value k base_tags
    end.
Proof.
  unfold merge_tags. rewrite tags_of_dict_lookup.
  - rewrite !dict_of_tags_to_map, !fold_insert_lookup. simpl.
    rewrite lookup_empty. by destruct (last_value k base_tags).
  - do 2 apply dict_of_tags_NoDup. apply NoDup_nil_2.
Qed.

Lemma filter_key_absent k tags :
  k ∉ map Key tags -> filter (fun t => Key t = k) tags = [].
Proof.
  induction tags as [|t tags IH]; [done|].
  rewrite map_cons, not_elem_of_cons. intros [Hne Hk].
  rewrite filter_cons_False by done. by apply IH.
Qed.

(** In a tag list without repeated keys, [last_value] finds the one
    entry of a key. *)
Lemma last_value_filter k v tags :
  NoDup (map Key tags) ->
  last_value k tags = Some v ->
  filter (fun t => Key t = k) tags = [mkTag k v].
Proof.
  induction tags as [|t tags IH]; [done|].
  rewrite map_cons. intros [Hk Hd]%NoDup_cons. cbn [last_value].
  destruct (last_value k tags) eqn:E.
  - intros [= ->]. rewrite filter_cons_False; [by apply IH|].
    intros <-. apply Hk, last_value_is_Some. by rewrite E.
  - destruct (decide (Key t = k)) as [<-|Hne]; [|done]. intros [= <-].
    rewrite filter_cons_True by done.
    rewrite filter_key_absent by done. by destruct t.
Qed.

Lemma dict_set_fresh k v d : k ∉ d.*1 -> dict_set k v d = d ++ [(k, v)].
Proof.
  induction d as [|[k' v'] d IH]; [done|].
  rewrite fmap_cons, not_elem_of_cons. cbn [fst dict_set]. intros [Hne Hk].
  rewrite decide_False by done. by rewrite IH.
Qed.

Lemma dict_of_tags_fresh tags d :
  NoDup (d.*1 ++ map Key tags) ->
  dict_of_tags tags d = d ++ map (fun t => (Key t, Value t)) tags.
Proof.
  revert d. induction tags as [|t tags IH]; intros d Hd.
  - by rewrite app_nil_r.
  - cbn [dict_of_tags fold_left map]. fold (dict_of_tags tags (dict_set (Key t) (Value t) d)).
    rewrite map_cons in Hd.
    assert (Key t ∉ d.*1) as Hfresh.
    { apply NoDup_app in Hd as (_ & Hd & _). intros Hin. apply (Hd _ Hin). by left. }
    rewrite dict_set_fresh by done. rewrite IH.
    + by rewrite <- app_assoc.
    + rewrite fmap_app, <- app_assoc. done.
Qed.

(** Merging nothing into a tag list without repeated keys returns it. *)
Lemma merge_tags_nil_id tags : NoDup (map Key tags) -> merge_tags tags [] = tags.
Proof.
  intros Hd. unfold merge_tags. cbn [dict_of_tags fold_left].
  fold (dict_of_tags tags []). rewrite dict_of_tags_fresh by done.
  rewrite app_nil_l, map_map. rewrite <- (map_id tags) at 2.
  apply map_ext. by intros [].
Qed.

End MergeTags.

(** In a tag list without repeated keys, the entries are the pairs of a
    key and its value. *)
Lemma elem_of_tags_NoDup (tags : list Tag) (k v : string) :
  NoDup (map Key tags) ->
  mkTag k v ∈ tags ↔ last_value k tags = Some v.
Proof.
  intros Hd. split.
  - intros Hin.
    assert (is_Some (last_value k tags)) as [v' Hv'].
    { apply last_value_is_Some. apply list_elem_of_fmap. by exists (mkTag k v). }
    pose proof (last_value_filter k v' tags Hd Hv') as Hf.
    assert (mkTag k v ∈ filter (fun t => Key t = k) tags) as Hin'.
    { by apply list_elem_of_filter. }
    rewrite Hf in Hin'. apply list_elem_of_singleton in Hin'. by injection Hin' as ->.
  - intros Hv. pose proof (last_value_filter k v tags Hd Hv) as Hf.
    assert (mkTag k v ∈ filter (fun t => Key t = k) tags) as Hin.
    { rewrite Hf. by apply list_elem_of_singleton. }
    by apply list_elem_of_filter in Hin as [_ ?].
Qed.

(** C7: the keys of [merge_tags base_tags new_tags] are exactly the keys of
    the two inputs, each of them once; the entries of the result are
    exactly the pairs of the base mapping with every override applied, so
    an override value wins on a shared key, where the result holds that one
    entry and no entry of the base, and a key without override keeps its
    base value; with no override the result denotes the base mapping, it is
    the base list itself when that repeats no key, and merging nothing a
    second time changes nothing. *)
Theorem merge_tags_union_override_wins (base_tags new_tags : list Tag) :
  let result := merge_tags base_tags new_tags in
  (∀ k, k ∈ map Key result ↔ k ∈ map Key base_tags ∨ k ∈ map Key new_tags)
  ∧ dom (tag_map result) = dom (tag_map base_tags) ∪ dom (tag_map new_tags)
  ∧ tag_map result = merge_spec base_tags new_tags
  ∧ (∀ k v, last_value k new_tags = Some v → tag_map result !! k = Some v)
  ∧ (∀ k, k ∉ map Key new_tags → tag_map result !! k = tag_map base_tags !! k)
  ∧ tag_map (merge_tags base_tags []) = tag_map base_tags
  ∧ merge_tags (merge_tags base_tags []) [] = merge_tags base_tags []
  ∧ NoDup (map Key result)
  ∧ (∀ k v, mkTag k v ∈ result ↔ merge_spec base_tags new_tags !! k = Some v)
  ∧ (∀ k v, last_value k new_tags = Some v →
       filter (fun t => Key t = k) result = [mkTag k v])
  ∧ (∀ k v, mkTag k v ∈ merge_tags base_tags [] ↔ tag_map base_tags !! k = Some v)
  ∧ (NoDup (map Key base_tags) → merge_tags base_tags [] = base_tags).
Proof.
  cbv zeta.
  assert (∀ n k, tag_map (merge_tags base_tags n) !! k
                 = match last_value k n with
                   | Some v => Some v
                   | None => last_value k base_tags
                   end) as Hlookup.
  { intros n k. by rewrite tag_map_lookup, merge_tags_last_value. }
  assert (∀ k, k ∈ map Key (merge_tags base_tags new_tags)
               ↔ k ∈ map Key base_tags ∨ k ∈ map Key new_tags) as Hkeys.
  { intros k. rewrite <- !last_value_is_Some, merge_tags_last_value.
    destruct (last_value k new_tags), (last_value k base_tags);
      rewrite <- ?not_eq_None_Some; naive_solver. }
  assert (tag_map (merge_tags base_tags new_tags) = merge_spec base_tags new_tags) as Hspec.
  { apply map_eq. intros k. unfold merge_spec.
    by rewrite Hlookup, fold_insert_lookup, tag_map_lookup. }
  split_and!.
  - done.
  - apply set_eq. intros k. rewrite elem_of_union, !elem_of_dom, !tag_map_lookup.
    rewrite !last_value_is_Some. apply Hkeys.
  - done.
  - intros k v Hv. by rewrite Hlookup, Hv.
  - intros k Hk. apply last_value_None in Hk. by rewrite Hlookup, Hk, tag_map_lookup.
  - apply map_eq. intros k. by rewrite Hlookup, tag_map_lookup.
  - apply merge_tags_nil_id, merge_tags_NoDup.
  - apply merge_tags_NoDup.
  - intros k v. rewrite <- Hspec, tag_map_lookup.
    apply elem_of_tags_NoDup, merge_tags_NoDup.
  - intros k v Hv. apply last_value_filter; [apply merge_tags_NoDup|].
    by rewrite merge_tags_last_value, Hv.
  - intros k v. pose proof (merge_tags_last_value base_tags [] k) as E.
    cbn [last_value] in E. rewrite tag_map_lookup, <- E.
    apply elem_of_tags_NoDup, merge_tags_NoDup.
  - apply merge_tags_nil_id.
Qed.

(** C9: the output of [merge_tags] never repeats a key, and a key of the
    base list that no override names has exactly one entry in the output,
    carrying the value of its last occurrence in the base list. *)
Theorem merge_tags_duplicate_base_keys (base_tags new_tags : list Tag) :
  NoDup (map Key (merge_tags base_tags new_tags))
  ∧ (∀ k, k ∈ map Key base_tags → k ∉ map Key new_tags →
       ∃ v, last_value k base_tags = Some v
            ∧ filter (fun t => Key t = k) (merge_tags base_tags new_tags) = [mkTag k v])
  ∧ (∀ k, k ∈ map Key base_tags →
       ∃ v, last_value k base_tags = Some v
            ∧ filter (fun t => Key t = k) (merge_tags base_tags []) = [mkTag k v]).
Proof.
  assert (∀ n k, k ∈ map Key base_tags → k ∉ map Key n →
            ∃ v, last_value k base_tags = Some v
                 ∧ filter (fun t => Key t = k) (merge_tags base_tags n) = [mkTag k v]) as H.
  { intros n k [v Hv]%last_value_is_Some Hn%last_value_None.
    exists v. split; [done|].
    apply last_value_filter; [apply merge_tags_NoDup|].
    by rewrite merge_tags_last_value, Hn. }
  split_and!.
  - apply merge_tags_NoDup.
  - apply H.
  - intros k Hk. apply H; [done | apply not_elem_of_nil].
Qed.

(** ** Filter strings *)

Section Strings.

Import PyStr.
Implicit Types (s t : string) (c d : ascii) (ts : list string).

Lemma lstrip_idemp s : lstrip (lstrip s) = lstrip s.
Proof.
  induction s as [|c s IH]; [done|]. cbn [lstrip].
  destruct (is_space c) eqn:E; [done|]. cbn [lstrip]. by rewrite E.
Qed.

Lemma rstrip_not_space c s : is_space c = false -> rstrip (String c s) = String c (rstrip s).
Proof. intros E. cbn [rstrip]. rewrite E. by destruct (rstrip s). Qed.

Lemma rstrip_space c s :
  is_space c = true ->
  rstrip (String c s) = match rstrip s with EmptyString => EmptyString | r => String c r end.
Proof. intros E. cbn [rstrip]. by rewrite E. Qed.

Lemma rstrip_idemp s : rstrip (rstrip s) = rstrip s.
Proof.
  induction s as [|c s IH]; [done|].
  destruct (is_space c) eqn:E.
  - rewrite (rstrip_space c s E). destruct (rstrip s) as [|a r] eqn:Er; [done|].
    rewrite (rstrip_space c _ E), IH. done.
  - rewrite (rstrip_not_space c s E), (rstrip_not_space c _ E). by rewrite IH.
Qed.

Lemma strip_comm s : rstrip (lstrip s) = lstrip (rstrip s).
Proof.
  induction s as [|c s IH]; [done|].
  destruct (is_space c) eqn:E.
  - cbn [lstrip]. rewrite E, (rstrip_space c s E), IH.
    destruct (rstrip s) as [|a r]; [done|]. cbn [lstrip]. by rewrite E.
  - cbn [lstrip]. rewrite E, (rstrip_not_space c s E). cbn [lstrip]. by rewrite E.
Qed.

Lemma strip_lstrip s : strip (lstrip s) = strip s.
Proof. unfold strip. by rewrite lstrip_idemp. Qed.

Lemma strip_rstrip s : strip (rstrip s) = strip s.
Proof. unfold strip. by rewrite <- strip_comm, rstrip_idemp. Qed.

Lemma append_nil s : "" +:+ s = s.
Proof. done. Qed.

Lemma append_cons c s t : String c s +:+ t = String c (s +:+ t).
Proof. done. Qed.

Lemma lstrip_app_bar d t s :
  is_space d = false -> lstrip (t +:+ String d s) = lstrip t +:+ String d s.
Proof.
  intros Hd. induction t as [|c t IH]; rewrite ?append_nil, ?append_cons; cbn [lstrip].
  - by rewrite Hd.
  - destruct (is_space c); [done|]. by rewrite append_cons.
Qed.

Lemma rstrip_app_bar d t s :
  is_space d = false -> rstrip (t +:+ String d s) = t +:+ String d (rstrip s).
Proof.
  intros Hd. induction t as [|c t IH]; rewrite ?append_nil, ?append_cons.
  - by apply rstrip_not_space.
  - cbn [rstrip]. rewrite IH. destruct t; rewrite ?append_nil, ?append_cons; done.
Qed.

Lemma contains_lstrip d t : contains d t = false -> contains d (lstrip t) = false.
Proof.
  induction t as [|c t IH]; [done|]. cbn [contains lstrip].
  destruct (decide (c = d)); [done|]. intros Ht.
  destruct (is_space c); [by apply IH|]. cbn [contains]. by rewrite decide_False.
Qed.

Lemma contains_rstrip d t : contains d t = false -> contains d (rstrip t) = false.
Proof.
  induction t as [|c t IH]; [done|]. cbn [contains].
  destruct (decide (c = d)) as [|Hne]; [done|]. intros Ht. specialize (IH Ht).
  cbn [rstrip]. destruct (rstrip t) as [|a r].
  - destruct (is_space c); [done|]. cbn [contains]. by rewrite decide_False.
  - cbn [contains] in *. by rewrite decide_False.
Qed.

Lemma split_bar_free d t : contains d t = false -> split d t = [t].
Proof.
  induction t as [|c t IH]; [done|]. cbn [contains split].
  destruct (decide (c = d)); [done|]. intros Ht. by rewrite IH.
Qed.

Lemma split_app_bar d t s :
  contains d t = false -> split d (t +:+ String d s) = t :: split d s.
Proof.
  induction t as [|c t IH]; rewrite ?append_nil, ?append_cons; cbn [contains split].
  - by rewrite decide_True.
  - destruct (decide (c = d)); [done|]. intros Ht. by rewrite IH.
Qed.

Lemma join_cons (sep : string) t t' ts :
  join sep (t :: t' :: ts) = t +:+ sep +:+ join sep (t' :: ts).
Proof. done. Qed.

Lemma split_join d ts :
  ts ≠ [] -> Forall (fun t => contains d t = false) ts ->
  split d (join (String d EmptyString) ts) = ts.
Proof.
  induction ts as [|t ts IH]; [done|]. intros _ [Ht Hts]%Forall_cons.
  destruct ts as [|t' ts].
  - by apply split_bar_free.
  - rewrite join_cons, append_cons, append_nil.
    rewrite split_app_bar by done. by rewrite IH.
Qed.

Lemma lstrip_join d ts :
  is_space d = false ->
  lstrip (join (String d EmptyString) ts) = join (String d EmptyString) (on_first lstrip ts).
Proof.
  intros Hd. destruct ts as [|t [|t' ts]]; [done..|].
  cbn [on_first]. rewrite !join_cons, !append_cons, !append_nil.
  by apply lstrip_app_bar.
Qed.

Lemma rstrip_join d ts :
  is_space d = false ->
  rstrip (join (String d EmptyString) ts) = join (String d EmptyString) (on_last rstrip ts).
Proof.
  intros Hd. induction ts as [|t ts IH]; [done|].
  destruct ts as [|t' ts]; [done|].
  rewrite join_cons, append_cons, append_nil. rewrite rstrip_app_bar by done.
  rewrite IH. change (on_last rstrip (t :: t' :: ts)) with (t :: on_last rstrip (t' :: ts)).
  destruct (on_last rstrip (t' :: ts)) as [|u us] eqn:E.
  - by destruct ts.
  - by rewrite join_cons, append_cons, append_nil.
Qed.

Lemma map_strip_on_first ts : map strip (on_first lstrip ts) = map strip ts.
Proof. destruct ts as [|t ts]; [done|]. cbn [on_first map]. by rewrite strip_lstrip. Qed.

Lemma map_strip_on_last ts : map strip (on_last rstrip ts) = map strip ts.
Proof.
  induction ts as [|t ts IH]; [done|]. destruct ts as [|t' ts].
  - cbn [on_last map]. by rewrite strip_rstrip.
  - change (on_last rstrip (t :: t' :: ts)) with (t :: on_last rstrip (t' :: ts)).
    by rewrite !map_cons, IH.
Qed.

Lemma on_first_Forall (P : string -> Prop) f ts :
  (∀ t, P t -> P (f t)) -> Forall P ts -> Forall P (on_first f ts).
Proof. intros Hf [|t ts' Ht Hts]; constructor; auto. Qed.

Lemma on_last_Forall (P : string -> Prop) f ts :
  (∀ t, P t -> P (f t)) -> Forall P ts -> Forall P (on_last f ts).
Proof.
  intros Hf. induction 1 as [|t ts Ht Hts IH]; [constructor|].
  destruct ts as [|t' ts]; cbn [on_last]; constructor; auto.
Qed.

Lemma on_first_nil {A} (f : A -> A) (l : list A) : on_first f l = [] -> l = [].
Proof. by destruct l. Qed.

Lemma on_last_nil {A} (f : A -> A) (l : list A) : on_last f l = [] -> l = [].
Proof. destruct l as [|x [|y l]]; done. Qed.

(** The comprehension of the source keeps the tokens of the spec. *)
Lemma comprehension_kept_tokens ts :
  map strip (filter (fun v => truthy (strip v) = true) ts) = kept_tokens ts.
Proof.
  unfold kept_tokens. induction ts as [|t ts IH]; [done|].
  rewrite map_cons. destruct (strip t) eqn:E.
  - rewrite filter_cons_False by (rewrite E; done).
    rewrite filter_cons_False by (intros H; by apply H). done.
  - rewrite filter_cons_True by (rewrite E; done).
    rewrite filter_cons_True by done. by rewrite map_cons, IH, E.
Qed.

Lemma parse_volume_ids_join ts :
  Forall bar_free ts ->
  parse_volume_ids (join "|" ts) = kept_tokens ts.
Proof.
  intros Hts. destruct (decide (ts = [])) as [->|Hne]; [done|].
  unfold parse_volume_ids, strip.
  rewrite lstrip_join, rstrip_join by done.
  rewrite split_join.
  - rewrite comprehension_kept_tokens. unfold kept_tokens.
    by rewrite map_strip_on_last, map_strip_on_first.
  - intros H%on_last_nil%on_first_nil. done.
  - apply on_last_Forall; [apply contains_rstrip|].
    apply on_first_Forall; [apply contains_lstrip|]. done.
Qed.

End Strings.

(** ** The locators *)

Lemma py_in_spec (x : option string) (l : list string) :
  py_in x l = true ↔ ∃ s, x = Some s ∧ s ∈ l.
Proof.
  destruct x as [s|]; simpl.
  - rewrite bool_decide_eq_true. naive_solver.
  - naive_solver.
Qed.

Section Locators.

Variable env : Env.
Implicit Types (w : World) (response : DescribeInstancesResponse).

Lemma get_attached_volumes_ok instance_id w response :
  respond env (trace w) (describe_instances instance_id) = Ok response ->
  (get_attached_volumes env instance_id w).1 = Returned (not_excluded response).
Proof.
  intros H. unfold get_attached_volumes, try_except, bind, call, ret.
  rewrite H. cbn [fst]. f_equal. unfold not_excluded. f_equal.
  apply list_filter_iff. intros m.
  rewrite negb_true_iff, <- not_true_iff_false, py_in_spec. done.
Qed.

Lemma get_filtered_attached_volumes_ok instance_id csv w response :
  respond env (trace w) (describe_instances instance_id) = Ok response ->
  (get_filtered_attached_volumes env instance_id csv w).1
  = Returned (not_excluded_and_requested (parse_volume_ids csv) response).
Proof.
  intros H. unfold get_filtered_attached_volumes, try_except, bind, call, ret.
  rewrite H. cbn [fst]. f_equal. unfold not_excluded_and_requested. f_equal.
  apply list_filter_iff. intros m.
  rewrite andb_true_iff, negb_true_iff, <- not_true_iff_false, !py_in_spec. done.
Qed.

(** The filtered locator reads the filter string only through the set of
    identifiers it parses to. *)
Lemma get_filtered_attached_volumes_ext instance_id csv csv' w :
  (∀ id, id ∈ parse_volume_ids csv' ↔ id ∈ parse_volume_ids csv) ->
  get_filtered_attached_volumes env instance_id csv' w
  = get_filtered_attached_volumes env instance_id csv w.
Proof.
  intros Hids. unfold get_filtered_attached_volumes, try_except, bind, call, ret.
  destruct (respond env (trace w) (describe_instances instance_id)) as [response|e]; [|done].
  do 3 f_equal. apply list_filter_iff. intros m.
  rewrite !andb_true_iff, !py_in_spec. naive_solver.
Qed.

Lemma not_excluded_and_requested_devices ids response :
  Forall (fun v => ¬ device_excluded (device_name v))
    (not_excluded_and_requested ids response).
Proof.
  unfold not_excluded_and_requested. apply Forall_forall. intros v Hv.
  apply list_elem_of_fmap in Hv as (m & -> & Hm).
  apply list_elem_of_filter in Hm as [[Hdev _] _]. done.
Qed.

End Locators.

(** C6: when the instance lookup answers, the filtered locator returns, in
    enumeration order, exactly the attachments whose device is not excluded
    and whose volume id is among the identifiers of the filter; no returned
    device is excluded; and any filter string with the same set of
    identifiers (reordered, repeated) gives the same result. *)
Theorem filtered_locator_exact (env : Env) (instance_id csv : string) (w : World)
    (response : DescribeInstancesResponse) :
  respond env (trace w) (describe_instances instance_id) = Ok response ->
  let located := not_excluded_and_requested (parse_volume_ids csv) response in
  (get_filtered_attached_volumes env instance_id csv w).1 = Returned located
  ∧ Forall (fun v => ∀ d, device_name v = Some d → d ∉ EXCLUDE_DEVICES) located
  ∧ (∀ csv', (∀ id, id ∈ parse_volume_ids csv' ↔ id ∈ parse_volume_ids csv) →
       (get_filtered_attached_volumes env instance_id csv' w).1 = Returned located).
Proof.
  intros H. cbv zeta. split_and!.
  - by apply get_filtered_attached_volumes_ok.
  - eapply Forall_impl; [apply not_excluded_and_requested_devices|].
    intros v Hv d Hd Hin. apply Hv. by exists d.
  - intros csv' Hids. rewrite (get_filtered_attached_volumes_ext _ _ csv) by done.
    by apply get_filtered_attached_volumes_ok.
Qed.

Lemma filtered_locator_exact_witness :
  (get_filtered_attached_volumes Scenario.happy "i-1" "vol-2|vol-1|vol-2|vol-0" Scenario.w0).1
  = Returned [Scenario.vol1; Scenario.vol2]
  ∧ (get_filtered_attached_volumes Scenario.happy "i-1" "vol-0|vol-1|vol-2" Scenario.w0).1
    = Returned [Scenario.vol1; Scenario.vol2].
Proof.
  pose proof (filtered_locator_exact Scenario.happy "i-1" "vol-2|vol-1|vol-2|vol-0"
                Scenario.w0 Scenario.response eq_refl) as (H1 & _ & H2).
  split.
  - exact H1.
  - apply (H2 "vol-0|vol-1|vol-2"). intros id. vm_compute parse_volume_ids.
    rewrite !elem_of_cons. naive_solver.
Defined.

(** C10: a filter string made of tokens separated by "|" is read as the
    stripped tokens that are not empty, so two such strings whose tokens
    differ only in surrounding whitespace or in empty segments give the same
    result of the filtered locator. *)
Theorem filter_string_whitespace_and_empty_segments (env : Env) (instance_id : string)
    (ts1 ts2 : list string) (w : World) :
  Forall bar_free ts1 -> Forall bar_free ts2 ->
  kept_tokens ts1 = kept_tokens ts2 ->
  parse_volume_ids (PyStr.join "|" ts1) = kept_tokens ts1
  ∧ parse_volume_ids (PyStr.join "|" ts2) = parse_volume_ids (PyStr.join "|" ts1)
  ∧ get_filtered_attached_volumes env instance_id (PyStr.join "|" ts2) w
    = get_filtered_attached_volumes env instance_id (PyStr.join "|" ts1) w.
Proof.
  intros H1 H2 Heq.
  pose proof (parse_volume_ids_join ts1 H1) as E1.
  pose proof (parse_volume_ids_join ts2 H2) as E2.
  split_and!; [done | congruence |].
  apply get_filtered_attached_volumes_ext. intros id. by rewrite E1, E2, Heq.
Qed.

Lemma filter_string_whitespace_and_empty_segments_witness :
  parse_volume_ids "vol-1| |vol-2" = ["vol-1"; "vol-2"]
  ∧ parse_volume_ids " vol-1 ||vol-2 |" = parse_volume_ids "vol-1| |vol-2"
  ∧ get_filtered_attached_volumes Scenario.happy "i-1" " vol-1 ||vol-2 |" Scenario.w0
    = get_filtered_attached_volumes Scenario.happy "i-1" "vol-1| |vol-2" Scenario.w0.
Proof.
  apply (filter_string_whitespace_and_empty_segments Scenario.happy "i-1"
           ["vol-1"; " "; "vol-2"] [" vol-1 "; ""; "vol-2 "; ""] Scenario.w0).
  - repeat constructor.
  - repeat constructor.
  - reflexivity.
Defined.

(** ** The choice of locator in [main] *)

Lemma truthy_false (s : string) : PyStr.truthy s = false ↔ s = "".
Proof. by destruct s. Qed.

Lemma use_filter_false (csv : option string) :
  use_filter csv = false
  ↔ csv = None ∨ csv = Some "AllVolumes" ∨ ∃ s, csv = Some s ∧ PyStr.strip s = "".
Proof.
  destruct csv as [s|]; cbn [use_filter]; [|naive_solver].
  rewrite !andb_false_iff, negb_false_iff, bool_decide_eq_true, !truthy_false.
  split.
  - intros [[->| ->]|H]; [right; right; by exists "" | by right; left |].
    right; right. by exists s.
  - intros [?|[[= ->]|(s' & [= <-] & H)]]; [done | by left; right | by right].
Qed.

Lemma locate_volumes_unfiltered (env : Env) (INSTANCE_ID : string)
    (volume_ids_csv : option string) (w : World) (response : DescribeInstancesResponse) :
  respond env (trace w) (describe_instances INSTANCE_ID) = Ok response ->
  use_filter volume_ids_csv = false ->
  (locate_volumes env INSTANCE_ID volume_ids_csv w).1 = Returned (not_excluded response)
  ∧ stdout (locate_volumes env INSTANCE_ID volume_ids_csv w).2
    = PStr "All volumes" :: stdout w.
Proof.
  intros H Hu. unfold locate_volumes. rewrite Hu.
  pose proof (get_attached_volumes_ok env INSTANCE_ID w response H) as Hok.
  unfold get_attached_volumes, try_except, bind, call, ret, print in *.
  rewrite H in *. cbn [fst snd] in *. by destruct w.
Qed.

Lemma locate_volumes_filtered (env : Env) (INSTANCE_ID s : string) (w : World)
    (response : DescribeInstancesResponse) :
  respond env (trace w) (describe_instances INSTANCE_ID) = Ok response ->
  use_filter (Some s) = true ->
  (locate_volumes env INSTANCE_ID (Some s) w).1
  = Returned (not_excluded_and_requested (parse_volume_ids s) response)
  ∧ stdout (locate_volumes env INSTANCE_ID (Some s) w).2
    = PStr "filtered volume ids" :: stdout w.
Proof.
  intros H Hu. unfold locate_volumes. rewrite Hu. cbn [default].
  pose proof (get_filtered_attached_volumes_ok env INSTANCE_ID s w response H) as Hok.
  unfold get_filtered_attached_volumes, try_except, bind, call, ret, print in *.
  rewrite H in *. cbn [fst snd] in *. by destruct w.
Qed.

(** ** The audit recorder *)

(** C8: [record_old_volume] and [record_new_volume] return normally for
    every input and every reply of the audit store; when the write raises,
    the table is left as it was and an [ERROR] line is printed, and when it
    succeeds the item is stored under its key. *)
Theorem audit_recorder_never_raises (env : Env) (volume_id : option string)
    (new_volume_id snapshot_id instance_id instance_name : string)
    (device_name : option string) (size iops throughput : Z)
    (volume_type az sg_names : string) (w : World) :
  let before := record_old_volume env volume_id instance_id instance_name device_name
                  size iops throughput snapshot_id w in
  let after := record_new_volume env new_volume_id snapshot_id instance_id instance_name
                 device_name size iops throughput volume_type az sg_names w in
  before.1 = Returned tt
  ∧ after.1 = Returned tt
  ∧ (∃ item raised,
       trace before.2 = {| ev_call := old_table_put_item item; ev_raised := raised |} :: trace w
       ∧ new_table before.2 = new_table w
       ∧ match raised with
         | Some e =>
             old_table before.2 = old_table w
             ∧ stdout before.2
               = PStr ("[ERROR] Failed to log old volume " +:+ PyStr.str_opt volume_id
                       +:+ ": " +:+ exn_msg e) :: stdout w
         | None =>
             old_table before.2 = <[volume_id := item]> (old_table w)
             ∧ stdout before.2
               = PStr ("[INFO] Logged OLD volume " +:+ PyStr.str_opt volume_id
                       +:+ " into DynamoDB.") :: stdout w
         end)
  ∧ (∃ item raised,
       trace after.2 = {| ev_call := new_table_put_item item; ev_raised := raised |} :: trace w
       ∧ old_table after.2 = old_table w
       ∧ match raised with
         | Some e =>
             new_table after.2 = new_table w
             ∧ stdout after.2
               = PStr ("[ERROR] Failed to log new volume " +:+ new_volume_id
                       +:+ ": " +:+ exn_msg e) :: stdout w
         | None =>
             new_table after.2 = <[new_volume_id := item]> (new_table w)
             ∧ stdout after.2
               = PStr ("[INFO] Logged NEW volume " +:+ new_volume_id
                       +:+ " into DynamoDB.") :: stdout w
         end).
Proof.
  cbv zeta. destruct w as [tr ot nt out].
  unfold record_old_volume, record_new_volume, try_except, bind, utcnow, call, print.
  cbn [trace].
  split_and!.
  - by destruct (respond env tr (old_table_put_item _)).
  - by destruct (respond env tr (new_table_put_item _)).
  - destruct (respond env tr (old_table_put_item _)) as [[]|e]; eexists _, _; by cbn.
  - destruct (respond env tr (new_table_put_item _)) as [[]|e]; eexists _, _; by cbn.
Qed.

(** ** The swap worker *)

Lemma try_except_bind {A B} (m : M A) (k : A -> M B) (h : exn -> M B) (w : World) :
  try_except (bind m k) h w
  = match m w with
    | (Returned a, w1) => try_except (k a) h w1
    | (Raised e, w1) => h e w1
    | (Exited n, w1) => (Exited n, w1)
    end.
Proof. unfold try_except, bind. destruct (m w) as [[]]; done. Qed.

(** [l] as the events added in front of [tr]. *)
Ltac events_before l tr :=
  lazymatch l with
  | tr => constr:(@nil Event)
  | ?e :: ?l' => let r := events_before l' tr in constr:(e :: r)
  end.

Ltac split_trace :=
  lazymatch goal with
  | |- ?l = ?evs ++ ?tr =>
      let r := events_before l tr in unify evs r; reflexivity
  end.

Ltac explicit_events H :=
  lazymatch type of H with
  | ?l = ?evs ++ ?tr =>
      let r := events_before l tr in
      change l with (r ++ tr) in H; apply app_inv_tail in H; subst evs
  end.

Ltac reduce_in H :=
  cbv beta iota zeta delta [print call utcnow ret raise sys_exit first_instance log_event
       commit trace old_table new_table stdout] in H.

(** Timestamps and tag lists play no part below. *)
Ltac abstract_in H :=
  repeat match type of H with
  | context [utcnow_isoformat ?env ?h] =>
      let ts := fresh "timestamp" in
      set (ts := utcnow_isoformat env h) in *; clearbody ts
  | context [merge_tags ?a ?b] =>
      let tg := fresh "tags" in
      set (tg := merge_tags a b) in *; clearbody tg
  end.

(** One statement of the worker, run in the hypothesis [H] that holds the
    equation of the run, with a case for every reply of the call made. *)
Ltac step_in H :=
  first [ rewrite try_except_bind in H
        | progress unfold record_old_volume, record_new_volume in H
        | progress cbv [try_except bind] in H ];
  reduce_in H; abstract_in H;
  repeat match type of H with
  | context [respond ?env ?h ?c] =>
      let E := fresh "E" in
      let e := fresh "e" in
      destruct (respond env h c) as [?|e] eqn:E; reduce_in H;
      try match type of H with
          | context [match e with WaiterError _ => _ | _ => _ end] =>
              destruct e; cbv [bind] in H; reduce_in H
          end
  | context [Reservations ?r] =>
      destruct (Reservations r) as [|? ?]; cbv [bind] in H; reduce_in H
  | context [Instances ?r] =>
      destruct (Instances r) as [|? ?]; cbv [bind] in H; reduce_in H
  end.

Ltac run_worker H :=
  unfold snapshot_and_swap in H; cbv [volume_id device_name] in H;
  repeat (step_in H; try discriminate H).

(** Whatever goes wrong in a worker ends in [sys.exit(1)]: the worker
    returns or exits with code 1, it never lets an exception through. *)
Lemma snapshot_and_swap_outcome (env : Env) (INSTANCE_ID : string) (volume_info : VolumeRef)
    (w : World) :
  (snapshot_and_swap env INSTANCE_ID volume_info w).1 = Returned tt
  ∨ (snapshot_and_swap env INSTANCE_ID volume_info w).1 = Exited 1.
Proof.
  destruct (snapshot_and_swap env INSTANCE_ID volume_info w) as [r w'] eqn:H.
  destruct volume_info as [vid dev], w as [tr ot nt out].
  run_worker H. all: injection H as <- _; auto.
Qed.

(** The first call of a worker loads its volume, and the trace only grows. *)
Ltac events_until l tr :=
  lazymatch l with
  | _ :: tr => constr:(@nil Event)
  | ?e :: ?l' => let r := events_until l' tr in constr:(e :: r)
  end.

Lemma snapshot_and_swap_loads (env : Env) (INSTANCE_ID : string) (volume_info : VolumeRef)
    (w : World) :
  ∃ evs raised,
    trace (snapshot_and_swap env INSTANCE_ID volume_info w).2
    = evs ++ {| ev_call := Volume_load (volume_id volume_info); ev_raised := raised |}
         :: trace w.
Proof.
  destruct (snapshot_and_swap env INSTANCE_ID volume_info w) as [r w'] eqn:H.
  destruct volume_info as [vid dev], w as [tr ot nt out].
  run_worker H.
  all: injection H as _ <-; cbn [trace snd volume_id].
  all: lazymatch goal with
       | |- ∃ evs raised, ?l = _ =>
           let r := events_until l tr in exists r; eexists; reflexivity
       end.
Qed.

(** C4: in a swap that completes, the one [attach_volume] call attaches
    the volume that [create_volume] returned to the instance at the
    [device_name] the worker read from [volume_info] at its start. *)
Theorem swap_attaches_at_recorded_device (env : Env) (INSTANCE_ID : string)
    (volume_info : VolumeRef) (w w' : World) :
  snapshot_and_swap env INSTANCE_ID volume_info w = (Returned tt, w') ->
  ∃ evs new_volume_id,
    trace w' = evs ++ trace w
    ∧ filter is_attach evs
      = [ok (attach_volume new_volume_id INSTANCE_ID (device_name volume_info))]
    ∧ ∃ h request, respond env h (create_volume request) = Ok new_volume_id.
Proof.
  destruct volume_info as [vid dev], w as [tr ot nt out]. intros H.
  run_worker H.
  all: injection H as <-.
  all: eexists _, _; split_and!; [cbn [trace]; split_trace | reflexivity | eauto].
Qed.

Lemma swap_attaches_at_recorded_device_witness :
  ∃ evs new_volume_id,
    trace (snapshot_and_swap Scenario.happy "i-1" Scenario.vol1 Scenario.w0).2
    = evs ++ trace Scenario.w0
    ∧ filter is_attach evs = [ok (attach_volume new_volume_id "i-1" (Some "/dev/sdf"))]
    ∧ ∃ h request, respond Scenario.happy h (create_volume request) = Ok new_volume_id.
Proof.
  apply (swap_attaches_at_recorded_device Scenario.happy "i-1" Scenario.vol1 Scenario.w0).
  vm_compute. reflexivity.
Defined.

(** C5: when the wait for the snapshot runs out of attempts, the worker
    exits with code 1 having made no [create_volume] call and no write to
    either audit table, and both tables are as they were. *)
Theorem snapshot_wait_timeout_writes_nothing (env : Env) (INSTANCE_ID : string)
    (volume_info : VolumeRef) (w : World) (r : Outcome unit) (w' : World)
    (evs : list Event) (snapshot_id msg : string) :
  snapshot_and_swap env INSTANCE_ID volume_info w = (r, w') ->
  trace w' = evs ++ trace w ->
  failed (wait_snapshot_completed snapshot_id) (WaiterError msg) ∈ evs ->
  r = Exited 1
  ∧ old_table w' = old_table w
  ∧ new_table w' = new_table w
  ∧ filter is_create_volume evs = []
  ∧ filter is_old_put evs = []
  ∧ filter is_new_put evs = [].
Proof.
  destruct volume_info as [vid dev], w as [tr ot nt out]. intros H Htr Hin.
  run_worker H.
  all: injection H as <- <-; cbn [trace] in Htr; explicit_events Htr.
  all: try (exfalso; repeat (apply elem_of_cons in Hin as [Hin|Hin]; [discriminate Hin|]);
            by apply elem_of_nil in Hin).
  all: split_and!; reflexivity.
Qed.

Lemma snapshot_wait_timeout_writes_nothing_witness :
  let run := snapshot_and_swap Scenario.snapshot_wait_times_out "i-1" Scenario.vol1
               Scenario.w0 in
  run.1 = Exited 1
  ∧ old_table run.2 = old_table Scenario.w0
  ∧ new_table run.2 = new_table Scenario.w0
  ∧ filter is_create_volume (trace run.2) = []
  ∧ filter is_old_put (trace run.2) = []
  ∧ filter is_new_put (trace run.2) = [].
Proof.
  apply (snapshot_wait_timeout_writes_nothing Scenario.snapshot_wait_times_out "i-1"
           Scenario.vol1 Scenario.w0 _ _ _ "snap-1" "Max attempts exceeded").
  - vm_compute. reflexivity.
  - vm_compute. reflexivity.
  - vm_compute. apply list_elem_of_here.
Defined.

(** ** The driver *)

Lemma executor_map_returns {A B} (fn : A -> M B) (xs : list A) (w : World) :
  ∃ futures w', executor_map fn xs w = (Returned futures, w')
                ∧ length futures = length xs.
Proof.
  revert w. induction xs as [|x xs IH]; intros w; cbn [executor_map].
  - by eexists _, _.
  - destruct (fn x w) as [future w1]. destruct (IH w1) as (futures & w2 & -> & Hlen).
    eexists _, _. split; [done|]. cbn [length]. by rewrite Hlen.
Qed.

Lemma for_each_print_returns {A} (xs : list A) (line : A -> string) (w : World) :
  ∃ w', for_each xs (fun x => print (line x)) w = (Returned tt, w').
Proof.
  revert w. induction xs as [|x xs IH]; intros w; cbn [for_each].
  - by eexists.
  - unfold bind at 1. cbn [print]. apply IH.
Qed.

(** The locators let through only what [describe_instances] raises that is
    not a [ClientError]; they never exit. *)
Lemma locate_volumes_outcome (env : Env) (INSTANCE_ID : string)
    (volume_ids_csv : option string) (w : World) :
  (∃ vs, (locate_volumes env INSTANCE_ID volume_ids_csv w).1 = Returned vs)
  ∨ (∃ e, (locate_volumes env INSTANCE_ID volume_ids_csv w).1 = Raised e).
Proof.
  unfold locate_volumes, get_filtered_attached_volumes, get_attached_volumes,
    try_except, bind, call, ret, raise, print.
  destruct (use_filter volume_ids_csv);
    destruct (respond env (trace w) (describe_instances INSTANCE_ID)) as [?|[]];
    cbn; eauto.
Qed.

Lemma executor_map_loads (env : Env) (INSTANCE_ID : string) (vs : list VolumeRef)
    (w : World) :
  (∃ evs, trace (executor_map (snapshot_and_swap env INSTANCE_ID) vs w).2 = evs ++ trace w)
  ∧ ∀ v, v ∈ vs →
      ∃ raised, {| ev_call := Volume_load (volume_id v); ev_raised := raised |}
                ∈ trace (executor_map (snapshot_and_swap env INSTANCE_ID) vs w).2.
Proof.
  revert w. induction vs as [|x vs IH]; intros w.
  - split; [by exists [] | intros v Hv; by apply elem_of_nil in Hv].
  - cbn [executor_map].
    destruct (snapshot_and_swap_loads env INSTANCE_ID x w) as (evs1 & raised & Hx).
    destruct (snapshot_and_swap env INSTANCE_ID x w) as [future w1]. cbn [snd] in Hx.
    destruct (IH w1) as [[evs2 Hmono] Hin].
    assert (trace (let (o, w2) := executor_map (snapshot_and_swap env INSTANCE_ID) vs w1 in
                   match o with
                   | Returned futures => (Returned (future :: futures), w2)
                   | Raised e => (Raised e, w2)
                   | Exited n => (Exited n, w2)
                   end).2
            = trace (executor_map (snapshot_and_swap env INSTANCE_ID) vs w1).2) as Heq.
    { by destruct (executor_map (snapshot_and_swap env INSTANCE_ID) vs w1) as [[]]. }
    rewrite Heq. split.
    + exists (evs2 ++ evs1 ++ [{| ev_call := Volume_load (volume_id x); ev_raised := raised |}]).
      rewrite Hmono, Hx, <- !app_assoc. done.
    + intros v [->|Hv]%elem_of_cons.
      * exists raised. rewrite Hmono, Hx. rewrite !elem_of_app, elem_of_cons. auto.
      * by apply Hin.
Qed.

(** [main] starts a worker on every volume of [all_volumes]: each of them
    has its volume loaded. *)
Lemma process_volumes_loads (env : Env) (INSTANCE_ID : string)
    (all_volumes : list VolumeRef) (w : World) (v : VolumeRef) :
  v ∈ all_volumes ->
  ∃ raised, {| ev_call := Volume_load (volume_id v); ev_raised := raised |}
            ∈ trace (process_volumes env INSTANCE_ID all_volumes w).2.
Proof.
  intros Hv. unfold process_volumes. unfold bind at 1. cbn [print_volumes].
  destruct all_volumes as [|v0 vs]; [by apply elem_of_nil in Hv|].
  unfold bind at 1. cbn [print]. unfold bind at 1.
  match goal with
  | |- context [for_each ?xs ?f ?w] =>
      destruct (for_each_print_returns xs
                  (fun v => "  - " +:+ PyStr.str_opt (volume_id v) +:+ " ("
                            +:+ PyStr.str_opt (device_name v) +:+ ")") w) as [w3 Hw3]
  end.
  cbv beta in Hw3. rewrite Hw3. unfold bind at 1.
  destruct (executor_map_loads env INSTANCE_ID (v0 :: vs) w3) as [_ Hin].
  destruct (Hin v Hv) as [raised Hr]. exists raised.
  destruct (executor_map_returns (snapshot_and_swap env INSTANCE_ID) (v0 :: vs) w3)
    as (futures & w4 & Hw4 & _).
  rewrite Hw4 in Hr |- *. exact Hr.
Qed.

(** [main] returns whenever the locator does, whatever the workers did;
    otherwise it dies of the exception the locator let through. *)
Lemma process_volumes_returns (env : Env) (INSTANCE_ID : string)
    (all_volumes : list VolumeRef) (w : World) :
  (process_volumes env INSTANCE_ID all_volumes w).1 = Returned tt.
Proof.
  unfold process_volumes. unfold bind at 1. cbn [print_volumes].
  destruct all_volumes as [|v vs]; [done|].
  unfold bind at 1. cbn [print]. unfold bind at 1.
  match goal with
  | |- context [for_each ?xs ?f ?w] =>
      destruct (for_each_print_returns xs
                  (fun v => "  - " +:+ PyStr.str_opt (volume_id v) +:+ " ("
                            +:+ PyStr.str_opt (device_name v) +:+ ")") w) as [w3 ->]
  end.
  unfold bind at 1.
  match goal with
  | |- context [executor_map ?fn ?xs ?w] =>
      destruct (executor_map_returns fn xs w) as (futures & w4 & -> & _)
  end.
  reflexivity.
Qed.

Lemma main_outcome (env : Env) (REGION INSTANCE_ID : string)
    (volume_ids_csv : option string) (w : World) :
  ∃ r, (main env REGION INSTANCE_ID volume_ids_csv w).1 = r
       ∧ (r = Returned tt ∨ ∃ e, r = Raised e).
Proof.
  unfold main. unfold bind at 1 2 3 4 5. cbn [print].
  set (w1 := {| trace := _ |}). clearbody w1.
  destruct (locate_volumes_outcome env INSTANCE_ID volume_ids_csv w1) as [[vs H]|[e H]];
    destruct (locate_volumes env INSTANCE_ID volume_ids_csv w1) as [r w2];
    cbn [fst] in H; subst r.
  - eexists; split; [reflexivity|]. left. apply process_volumes_returns.
  - eexists; split; [reflexivity | right; by exists e].
Qed.

(** The exit status of the script does not depend on what the workers
    did: it is 0 whenever the locator returns. *)
Lemma run_script_exit_status (env : Env) (REGION INSTANCE_ID : string)
    (volume_ids_csv : option string) (w : World) :
  run_script env REGION INSTANCE_ID volume_ids_csv w = 0%Z
  ∨ ∃ e, (main env REGION INSTANCE_ID volume_ids_csv w).1 = Raised e.
Proof.
  unfold run_script.
  destruct (main_outcome env REGION INSTANCE_ID volume_ids_csv w) as (r & -> & [->|[e ->]]).
  - by left.
  - right. by exists e.
Qed.

(** C1 fails on the code: a worker that is refused by the API, that runs
    out of attempts on a wait, or that meets an unexpected fault exits with
    code 1, yet the script prints its closing line and ends with status 0. *)
Theorem failed_worker_leaves_exit_status_zero :
  (snapshot_and_swap Scenario.snapshot_rejected "i-1" Scenario.vol1 Scenario.w0).1 = Exited 1
  ∧ run_script Scenario.snapshot_rejected "us-east-1" "i-1" (Some "vol-1") Scenario.w0 = 0%Z
  ∧ (snapshot_and_swap Scenario.snapshot_wait_times_out "i-1" Scenario.vol2 Scenario.w0).1
    = Exited 1
  ∧ run_script Scenario.snapshot_wait_times_out "us-east-1" "i-1" (Some "AllVolumes")
      Scenario.w0 = 0%Z
  ∧ (snapshot_and_swap Scenario.volume_load_faults "i-1" Scenario.vol1 Scenario.w0).1
    = Exited 1
  ∧ run_script Scenario.volume_load_faults "us-east-1" "i-1" (Some "vol-1|vol-2")
      Scenario.w0 = 0%Z
  ∧ head (stdout (main Scenario.snapshot_rejected "us-east-1" "i-1" (Some "vol-1")
                    Scenario.w0).2)
    = Some (PStr "[INFO] All volume operations completed.").
Proof. vm_compute. split_and!; reflexivity. Qed.

(** [main] hands the volumes the locator returned to the workers. *)
Lemma main_loads (env : Env) (REGION INSTANCE_ID : string)
    (volume_ids_csv : option string) (w : World) (vs : list VolumeRef) (v : VolumeRef) :
  (∀ w1, trace w1 = trace w →
         (locate_volumes env INSTANCE_ID volume_ids_csv w1).1 = Returned vs) ->
  v ∈ vs ->
  ∃ raised, {| ev_call := Volume_load (volume_id v); ev_raised := raised |}
            ∈ trace (main env REGION INSTANCE_ID volume_ids_csv w).2.
Proof.
  intros Hloc Hv. unfold main. unfold bind at 1 2 3 4 5. cbn [print].
  set (w1 := {| trace := _ |}). specialize (Hloc w1 eq_refl). clearbody w1.
  destruct (locate_volumes env INSTANCE_ID volume_ids_csv w1) as [r w2].
  cbn [fst] in Hloc. subst r. by apply process_volumes_loads.
Qed.

(** C2 (amended): [main] takes the unfiltered path exactly when the filter
    argument is absent, is the sentinel "AllVolumes", or is empty once
    stripped (the empty string included); [all_volumes] is then every
    attachment whose device is not excluded, and a worker is started on
    each of them.  Any other filter string takes the filtered path. *)
Theorem unfiltered_path_sentinel (env : Env) (REGION INSTANCE_ID : string)
    (volume_ids_csv : option string) (w : World) (response : DescribeInstancesResponse) :
  respond env (trace w) (describe_instances INSTANCE_ID) = Ok response ->
  (use_filter volume_ids_csv = false
   ↔ volume_ids_csv = None ∨ volume_ids_csv = Some "AllVolumes"
     ∨ ∃ s, volume_ids_csv = Some s ∧ PyStr.strip s = "")
  ∧ (use_filter volume_ids_csv = false →
     (locate_volumes env INSTANCE_ID volume_ids_csv w).1 = Returned (not_excluded response)
     ∧ stdout (locate_volumes env INSTANCE_ID volume_ids_csv w).2
       = PStr "All volumes" :: stdout w
     ∧ ∀ v, v ∈ not_excluded response →
         ∃ raised, {| ev_call := Volume_load (volume_id v); ev_raised := raised |}
                   ∈ trace (main env REGION INSTANCE_ID volume_ids_csv w).2)
  ∧ (∀ s, volume_ids_csv = Some s → use_filter volume_ids_csv = true →
     (locate_volumes env INSTANCE_ID volume_ids_csv w).1
     = Returned (not_excluded_and_requested (parse_volume_ids s) response)
     ∧ stdout (locate_volumes env INSTANCE_ID volume_ids_csv w).2
       = PStr "filtered volume ids" :: stdout w
     ∧ ∀ v, v ∈ not_excluded_and_requested (parse_volume_ids s) response →
         ∃ raised, {| ev_call := Volume_load (volume_id v); ev_raised := raised |}
                   ∈ trace (main env REGION INSTANCE_ID volume_ids_csv w).2).
Proof.
  intros H. split_and!.
  - apply use_filter_false.
  - intros Hu.
    destruct (locate_volumes_unfiltered env INSTANCE_ID volume_ids_csv w response H Hu)
      as [Hloc Hout].
    split_and!; [done..|]. intros v Hv.
    apply (main_loads env REGION INSTANCE_ID volume_ids_csv w (not_excluded response));
      [|done].
    intros w1 Hw1. apply locate_volumes_unfiltered; [by rewrite Hw1 | done].
  - intros s -> Hu.
    destruct (locate_volumes_filtered env INSTANCE_ID s w response H Hu) as [Hloc Hout].
    split_and!; [done..|]. intros v Hv.
    apply (main_loads env REGION INSTANCE_ID (Some s) w
             (not_excluded_and_requested (parse_volume_ids s) response)); [|done].
    intros w1 Hw1. apply locate_volumes_filtered; [by rewrite Hw1 | done].
Qed.

Lemma unfiltered_path_sentinel_witness :
  (locate_volumes Scenario.happy "i-1" (Some "AllVolumes") Scenario.w0).1
  = Returned [Scenario.vol1; Scenario.vol2]
  ∧ (locate_volumes Scenario.happy "i-1" (Some "  ") Scenario.w0).1
    = Returned [Scenario.vol1; Scenario.vol2]
  ∧ (locate_volumes Scenario.happy "i-1" (Some "vol-2") Scenario.w0).1
    = Returned [Scenario.vol2]
  ∧ (∃ raised, {| ev_call := Volume_load (Some "vol-2"); ev_raised := raised |}
               ∈ trace (main Scenario.happy "us-east-1" "i-1" None Scenario.w0).2).
Proof.
  pose proof (unfiltered_path_sentinel Scenario.happy "us-east-1" "i-1" (Some "AllVolumes")
                Scenario.w0 Scenario.response eq_refl) as (_ & H1 & _).
  pose proof (unfiltered_path_sentinel Scenario.happy "us-east-1" "i-1" (Some "  ")
                Scenario.w0 Scenario.response eq_refl) as (_ & H2 & _).
  pose proof (unfiltered_path_sentinel Scenario.happy "us-east-1" "i-1" (Some "vol-2")
                Scenario.w0 Scenario.response eq_refl) as (_ & _ & H3).
  pose proof (unfiltered_path_sentinel Scenario.happy "us-east-1" "i-1" None
                Scenario.w0 Scenario.response eq_refl) as (_ & H4 & _).
  split_and!.
  - exact (proj1 (H1 eq_refl)).
  - exact (proj1 (H2 eq_refl)).
  - exact (proj1 (H3 "vol-2" eq_refl eq_refl)).
  - apply (proj2 (proj2 (H4 eq_refl)) Scenario.vol2).
    vm_compute. apply list_elem_of_further, list_elem_of_here.
Defined.

(** C2, as stated, fails on the filter "all": [main] takes the filtered path
    and looks for a volume whose id is "all", so it finds nothing where the
    unfiltered locator returns two volumes; and "AllVolumes", a non-blank
    string, takes the unfiltered path. *)
Lemma all_is_not_the_sentinel :
  use_filter (Some "all") = true
  ∧ (locate_volumes Scenario.happy "i-1" (Some "all") Scenario.w0).1 = Returned []
  ∧ (get_attached_volumes Scenario.happy "i-1" Scenario.w0).1
    = Returned [Scenario.vol1; Scenario.vol2]
  ∧ use_filter (Some "AllVolumes") = false.
Proof. split_and!; reflexivity. Qed.

(** * Further properties of the code *)

(** ** Parsing of the filter string *)

Lemma split_tokens_bar_free (d : ascii) (s : string) :
  Forall (fun t => PyStr.contains d t = false) (PyStr.split d s).
Proof.
  induction s as [|c s IH]; cbn [PyStr.split].
  - by repeat constructor.
  - destruct (decide (c = d)) as [->|Hne].
    + by constructor.
    + destruct (PyStr.split d s) as [|t ts]; [by repeat constructor; cbn; rewrite decide_False|].
      apply Forall_cons in IH as [Ht Hts]. constructor; [|done].
      cbn [PyStr.contains]. by rewrite decide_False.
Qed.

Lemma strip_idemp (s : string) : PyStr.strip (PyStr.strip s) = PyStr.strip s.
Proof. unfold PyStr.strip at 2. by rewrite strip_rstrip, strip_lstrip. Qed.

Lemma contains_strip (d : ascii) (t : string) :
  PyStr.contains d t = false -> PyStr.contains d (PyStr.strip t) = false.
Proof. intros H. by apply contains_rstrip, contains_lstrip. Qed.

(** X1: whatever the filter string, every identifier the filtered locator
    compares volume ids with is not empty, has no surrounding whitespace
    and holds no "|". *)
Theorem parse_volume_ids_clean (volume_ids_csv : string) :
  Forall clean_id (parse_volume_ids volume_ids_csv).
Proof.
  unfold parse_volume_ids. apply Forall_fmap, Forall_forall.
  intros v [Hv Hin]%list_elem_of_filter. unfold clean_id, compose. split_and!.
  - intros E. by rewrite E in Hv.
  - apply strip_idemp.
  - apply contains_strip.
    pose proof (split_tokens_bar_free "|" (PyStr.strip volume_ids_csv)) as Hall.
    rewrite Forall_forall in Hall. by apply Hall.
Qed.

Lemma kept_tokens_clean (ids : list string) : Forall clean_id ids -> kept_tokens ids = ids.
Proof.
  unfold kept_tokens. induction 1 as [|id ids (Hne & Hstrip & _) _ IH]; [done|].
  rewrite map_cons, Hstrip, filter_cons_True by done. by rewrite IH.
Qed.

(** X2: identifiers that are clean, joined by "|", are parsed back to the
    same list, in the same order and with their repetitions. *)
Theorem parse_volume_ids_join_clean (ids : list string) :
  Forall clean_id ids ->
  parse_volume_ids (PyStr.join "|" ids) = ids.
Proof.
  intros Hids. rewrite parse_volume_ids_join.
  - by apply kept_tokens_clean.
  - eapply Forall_impl; [exact Hids|]. by intros id (_ & _ & ?).
Qed.

Lemma parse_volume_ids_join_clean_witness :
  parse_volume_ids "vol-0a1|vol-0b2|vol-0a1" = ["vol-0a1"; "vol-0b2"; "vol-0a1"].
Proof.
  apply (parse_volume_ids_join_clean ["vol-0a1"; "vol-0b2"; "vol-0a1"]).
  repeat constructor; done.
Defined.

(** ** The locators and the driver *)

(** What [locate_volumes] returns and the world it leaves, by the reply
    to its one call. *)
Lemma locate_volumes_run (env : Env) (INSTANCE_ID : string)
    (volume_ids_csv : option string) (w : World) :
  locate_volumes env INSTANCE_ID volume_ids_csv w
  = let label := PStr (if use_filter volume_ids_csv
                       then "filtered volume ids" else "All volumes") in
    match respond env (trace w) (describe_instances INSTANCE_ID) with
    | Ok response =>
        (Returned (eligible_volumes volume_ids_csv response),
         {| trace := ok (describe_instances INSTANCE_ID) :: trace w;
            old_table := old_table w; new_table := new_table w;
            stdout := label :: stdout w |})
    | Fail (ClientError msg) =>
        (Returned [],
         {| trace := failed (describe_instances INSTANCE_ID) (ClientError msg) :: trace w;
            old_table := old_table w; new_table := new_table w;
            stdout := label
                      :: PStr ("[ERROR] Unable to fetch volumes for instance "
                               +:+ INSTANCE_ID +:+ ": " +:+ msg) :: stdout w |})
    | Fail e =>
        (Raised e,
         {| trace := failed (describe_instances INSTANCE_ID) e :: trace w;
            old_table := old_table w; new_table := new_table w;
            stdout := stdout w |})
    end.
Proof.
  unfold locate_volumes, eligible_volumes, get_filtered_attached_volumes,
    get_attached_volumes, try_except, bind, call, ret, raise, print.
  destruct (use_filter volume_ids_csv);
    destruct (respond env (trace w) (describe_instances INSTANCE_ID)) as [response|[]];
    cbn; try reflexivity; f_equal; f_equal.
  - unfold not_excluded_and_requested. f_equal. apply list_filter_iff. intros m.
    rewrite andb_true_iff, negb_true_iff, <- not_true_iff_false, !py_in_spec. done.
  - unfold not_excluded. f_equal. apply list_filter_iff. intros m.
    rewrite negb_true_iff, <- not_true_iff_false, py_in_spec. done.
Qed.

(** X3: for one reply of the instance lookup, the filtered locator
    returns a part of what the unfiltered locator returns, in the same
    order; each volume it returns carries an id, one of the identifiers of
    the filter; and both locators leave the same world behind. *)
Theorem filtered_within_unfiltered (env : Env) (instance_id csv : string) (w : World)
    (response : DescribeInstancesResponse) :
  respond env (trace w) (describe_instances instance_id) = Ok response ->
  ∃ filtered unfiltered,
    (get_filtered_attached_volumes env instance_id csv w).1 = Returned filtered
    ∧ (get_attached_volumes env instance_id w).1 = Returned unfiltered
    ∧ filtered `sublist_of` unfiltered
    ∧ Forall (fun v => ∃ id, volume_id v = Some id ∧ id ∈ parse_volume_ids csv) filtered
    ∧ (get_filtered_attached_volumes env instance_id csv w).2
      = (get_attached_volumes env instance_id w).2.
Proof.
  intros H. exists (not_excluded_and_requested (parse_volume_ids csv) response),
    (not_excluded response). split_and!.
  - by apply get_filtered_attached_volumes_ok.
  - by apply get_attached_volumes_ok.
  - unfold not_excluded_and_requested, not_excluded. apply fmap_sublist.
    rewrite <- (list_filter_filter_l _ (fun m => ¬ device_excluded (DeviceName m)))
      by naive_solver.
    apply sublist_filter.
  - unfold not_excluded_and_requested. apply Forall_fmap, Forall_forall.
    intros m [[_ Hreq] _]%list_elem_of_filter. exact Hreq.
  - unfold get_filtered_attached_volumes, get_attached_volumes, try_except, bind, call, ret.
    by rewrite H.
Qed.

Lemma filtered_within_unfiltered_witness :
  ∃ filtered unfiltered,
    (get_filtered_attached_volumes Scenario.happy "i-1" "vol-2|vol-0" Scenario.w0).1
    = Returned filtered
    ∧ (get_attached_volumes Scenario.happy "i-1" Scenario.w0).1 = Returned unfiltered
    ∧ filtered `sublist_of` unfiltered
    ∧ Forall (fun v => ∃ id, volume_id v = Some id ∧ id ∈ parse_volume_ids "vol-2|vol-0")
        filtered
    ∧ (get_filtered_attached_volumes Scenario.happy "i-1" "vol-2|vol-0" Scenario.w0).2
      = (get_attached_volumes Scenario.happy "i-1" Scenario.w0).2.
Proof.
  apply (filtered_within_unfiltered Scenario.happy "i-1" "vol-2|vol-0" Scenario.w0
           Scenario.response).
  reflexivity.
Defined.

(** X4: when the instance lookup raises, both locators make that one call
    and touch neither table; a [ClientError] is reported on the console and
    answered with the empty list, any other exception is let through with
    nothing printed. *)
Theorem locators_on_lookup_failure (env : Env) (instance_id csv : string) (w : World)
    (e : exn) :
  respond env (trace w) (describe_instances instance_id) = Fail e ->
  let filtered := get_filtered_attached_volumes env instance_id csv w in
  let unfiltered := get_attached_volumes env instance_id w in
  filtered = unfiltered
  ∧ trace unfiltered.2 = failed (describe_instances instance_id) e :: trace w
  ∧ old_table unfiltered.2 = old_table w
  ∧ new_table unfiltered.2 = new_table w
  ∧ match e with
    | ClientError msg =>
        unfiltered.1 = Returned []
        ∧ stdout unfiltered.2
          = PStr ("[ERROR] Unable to fetch volumes for instance " +:+ instance_id
                  +:+ ": " +:+ msg) :: stdout w
    | _ => unfiltered.1 = Raised e ∧ stdout unfiltered.2 = stdout w
    end.
Proof.
  intros H. cbv zeta.
  unfold get_filtered_attached_volumes, get_attached_volumes, try_except, bind, call, ret,
    raise, print.
  rewrite H. by destruct e.
Qed.

Lemma locators_on_lookup_failure_witness :
  get_filtered_attached_volumes Lookup.refused "i-1" "vol-1" Scenario.w0
  = get_attached_volumes Lookup.refused "i-1" Scenario.w0
  ∧ (get_attached_volumes Lookup.refused "i-1" Scenario.w0).1 = Returned []
  ∧ (get_attached_volumes Lookup.faults "i-1" Scenario.w0).1
    = Raised (OtherError "Could not connect to the endpoint URL").
Proof.
  pose proof (locators_on_lookup_failure Lookup.refused "i-1" "vol-1" Scenario.w0
                (ClientError "InvalidInstanceID.NotFound") eq_refl) as (H1 & _ & _ & _ & H2 & _).
  pose proof (locators_on_lookup_failure Lookup.faults "i-1" "vol-1" Scenario.w0
                (OtherError "Could not connect to the endpoint URL") eq_refl)
    as (_ & _ & _ & _ & H3 & _).
  split_and!; [exact H1 | exact H2 | exact H3].
Defined.

Lemma contains_lstrip_eq (d : ascii) (s : string) :
  PyStr.is_space d = false -> PyStr.contains d (PyStr.lstrip s) = PyStr.contains d s.
Proof.
  intros Hd. induction s as [|c s IH]; [done|]. cbn [PyStr.lstrip PyStr.contains].
  destruct (PyStr.is_space c) eqn:Hc; [|done].
  rewrite IH. rewrite decide_False; [done|]. intros ->. congruence.
Qed.

Lemma contains_rstrip_eq (d : ascii) (s : string) :
  PyStr.is_space d = false -> PyStr.contains d (PyStr.rstrip s) = PyStr.contains d s.
Proof.
  intros Hd. induction s as [|c s IH]; [done|].
  destruct (PyStr.is_space c) eqn:Hc.
  - rewrite (rstrip_space c s Hc). cbn [PyStr.contains].
    rewrite decide_False by (intros ->; congruence).
    rewrite <- IH. destruct (PyStr.rstrip s); [done|].
    cbn [PyStr.contains]. by rewrite decide_False by (intros ->; congruence).
  - rewrite (rstrip_not_space c s Hc). cbn [PyStr.contains]. by rewrite IH.
Qed.

(** X5: a filter string that holds a "|" but no identifier (only
    delimiters and whitespace) takes the filtered path and selects no
    volume; it is not read as "all volumes". *)
Theorem delimiters_only_filter_selects_nothing (env : Env) (INSTANCE_ID csv : string)
    (w : World) (response : DescribeInstancesResponse) :
  PyStr.contains "|" csv = true ->
  parse_volume_ids csv = [] ->
  respond env (trace w) (describe_instances INSTANCE_ID) = Ok response ->
  use_filter (Some csv) = true
  ∧ (locate_volumes env INSTANCE_ID (Some csv) w).1 = Returned [].
Proof.
  intros Hbar Hparse H.
  assert (use_filter (Some csv) = true) as Hu.
  { cbn [use_filter]. rewrite !andb_true_iff, negb_true_iff, bool_decide_eq_false.
    split_and!.
    - by destruct csv.
    - intros ->. done.
    - assert (PyStr.contains "|" (PyStr.strip csv) = true) as Hs.
      { unfold PyStr.strip. by rewrite contains_rstrip_eq, contains_lstrip_eq. }
      by destruct (PyStr.strip csv). }
  split; [done|].
  rewrite locate_volumes_run, H. cbn [fst]. unfold eligible_volumes.
  rewrite Hu. change (default "" (Some csv)) with csv. rewrite Hparse.
  unfold not_excluded_and_requested. f_equal.
  induction (mappings_of response) as [|m ms IH]; [done|].
  rewrite filter_cons_False; [done|].
  intros [_ (id & _ & Hid)]. by apply elem_of_nil in Hid.
Qed.

Lemma delimiters_only_filter_selects_nothing_witness :
  use_filter (Some " | ") = true
  ∧ (locate_volumes Scenario.happy "i-1" (Some " | ") Scenario.w0).1 = Returned [].
Proof.
  apply (delimiters_only_filter_selects_nothing Scenario.happy "i-1" " | " Scenario.w0
           Scenario.response); reflexivity.
Defined.

(** [main] after its four opening lines. *)
Lemma main_run (env : Env) (REGION INSTANCE_ID : string) (volume_ids_csv : option string)
    (w : World) :
  ∃ w1, trace w1 = trace w ∧ old_table w1 = old_table w ∧ new_table w1 = new_table w
        ∧ stdout w1 = PStr (PyStr.str_opt volume_ids_csv) :: PStr INSTANCE_ID
                      :: PStr REGION :: PStr "Inside script" :: stdout w
        ∧ main env REGION INSTANCE_ID volume_ids_csv w
          = match locate_volumes env INSTANCE_ID volume_ids_csv w1 with
            | (Returned all_volumes, w2) => process_volumes env INSTANCE_ID all_volumes w2
            | (Raised e, w2) => (Raised e, w2)
            | (Exited n, w2) => (Exited n, w2)
            end.
Proof.
  unfold main. unfold bind at 1 2 3 4 5. cbn [print].
  eexists. split_and!; [| | | |reflexivity]; reflexivity.
Qed.

(** X6: when the lookup is refused with a [ClientError], or answers with
    no eligible volume, [main] prints its warning and returns: the lookup
    is the only call made, no worker is started and the tables are
    untouched. *)
Theorem main_without_eligible_volume (env : Env) (REGION INSTANCE_ID : string)
    (volume_ids_csv : option string) (w : World) :
  match respond env (trace w) (describe_instances INSTANCE_ID) with
  | Ok response => eligible_volumes volume_ids_csv response = []
  | Fail e => ∃ msg, e = ClientError msg
  end ->
  let run := main env REGION INSTANCE_ID volume_ids_csv w in
  run.1 = Returned tt
  ∧ run_script env REGION INSTANCE_ID volume_ids_csv w = 0%Z
  ∧ (∃ raised, trace run.2
               = {| ev_call := describe_instances INSTANCE_ID; ev_raised := raised |}
                 :: trace w)
  ∧ old_table run.2 = old_table w
  ∧ new_table run.2 = new_table w
  ∧ ∃ out, stdout run.2
           = PStr "[WARN] No eligible volumes found." :: PVolumes [] :: out.
Proof.
  intros H. cbv zeta. unfold run_script.
  destruct (main_run env REGION INSTANCE_ID volume_ids_csv w)
    as (w1 & Htr & Hold & Hnew & _ & ->).
  rewrite locate_volumes_run, Htr. cbv zeta.
  destruct (respond env (trace w) (describe_instances INSTANCE_ID)) as [response|e].
  - rewrite H. unfold process_volumes, bind, print_volumes, print. cbn.
    split_and!; eauto.
  - destruct H as [msg ->]. unfold process_volumes, bind, print_volumes, print. cbn.
    split_and!; eauto.
Qed.

Lemma main_without_eligible_volume_witness :
  (main Lookup.refused "us-east-1" "i-1" (Some "AllVolumes") Scenario.w0).1 = Returned tt
  ∧ trace (main Lookup.refused "us-east-1" "i-1" (Some "AllVolumes") Scenario.w0).2
    = [failed (describe_instances "i-1") (ClientError "InvalidInstanceID.NotFound")]
  ∧ (main Scenario.happy "us-east-1" "i-1" (Some "vol-9") Scenario.w0).1 = Returned tt
  ∧ trace (main Scenario.happy "us-east-1" "i-1" (Some "vol-9") Scenario.w0).2
    = [ok (describe_instances "i-1")].
Proof.
  pose proof (main_without_eligible_volume Lookup.refused "us-east-1" "i-1"
                (Some "AllVolumes") Scenario.w0) as H1.
  pose proof (main_without_eligible_volume Scenario.happy "us-east-1" "i-1"
                (Some "vol-9") Scenario.w0) as H2.
  destruct H1 as (H1 & _ & [r1 T1] & _); [by eexists|].
  destruct H2 as (H2 & _ & [r2 T2] & _); [reflexivity|].
  split_and!; [exact H1 | reflexivity | exact H2 | reflexivity].
Defined.

(** X7: when the lookup raises anything but a [ClientError], [main] dies
    of that exception after the one call: no worker is started, nothing
    more is printed and the exit status is 1. *)
Theorem main_lookup_fault (env : Env) (REGION INSTANCE_ID : string)
    (volume_ids_csv : option string) (w : World) (e : exn) :
  respond env (trace w) (describe_instances INSTANCE_ID) = Fail e ->
  (∀ msg, e ≠ ClientError msg) ->
  let run := main env REGION INSTANCE_ID volume_ids_csv w in
  run.1 = Raised e
  ∧ run_script env REGION INSTANCE_ID volume_ids_csv w = 1%Z
  ∧ trace run.2 = failed (describe_instances INSTANCE_ID) e :: trace w
  ∧ old_table run.2 = old_table w
  ∧ new_table run.2 = new_table w
  ∧ stdout run.2 = PStr (PyStr.str_opt volume_ids_csv) :: PStr INSTANCE_ID
                   :: PStr REGION :: PStr "Inside script" :: stdout w.
Proof.
  intros H He. cbv zeta. unfold run_script.
  destruct (main_run env REGION INSTANCE_ID volume_ids_csv w)
    as (w1 & Htr & Hold & Hnew & Hout & ->).
  rewrite locate_volumes_run, Htr, H. cbv zeta.
  destruct e as [m|m|m]; [|by destruct (He m)|]; cbn; by rewrite ?Htr, ?Hold, ?Hnew, ?Hout.
Qed.

Lemma main_lookup_fault_witness :
  (main Lookup.faults "us-east-1" "i-1" (Some "vol-1") Scenario.w0).1
  = Raised (OtherError "Could not connect to the endpoint URL")
  ∧ run_script Lookup.faults "us-east-1" "i-1" (Some "vol-1") Scenario.w0 = 1%Z.
Proof.
  pose proof (main_lookup_fault Lookup.faults "us-east-1" "i-1" (Some "vol-1") Scenario.w0
                (OtherError "Could not connect to the endpoint URL") eq_refl) as H.
  destruct H as (H1 & H2 & _); [done|]. split; [exact H1 | exact H2].
Defined.

(** X8: once [main] is running, how it ends is decided by the instance
    lookup alone: it dies of the exception of the lookup when that is no
    [ClientError], which ends the interpreter with status 1, and it returns
    otherwise, which ends it with status 0, whatever happens in the
    workers. *)
Theorem main_outcome_decided_by_lookup (env : Env) (REGION INSTANCE_ID : string)
    (volume_ids_csv : option string) (w : World) :
  let outcome := (main env REGION INSTANCE_ID volume_ids_csv w).1 in
  outcome = match respond env (trace w) (describe_instances INSTANCE_ID) with
            | Ok _ | Fail (ClientError _) => Returned tt
            | Fail e => Raised e
            end
  ∧ exit_code outcome
    = match respond env (trace w) (describe_instances INSTANCE_ID) with
      | Ok _ | Fail (ClientError _) => 0%Z
      | Fail _ => 1%Z
      end.
Proof.
  cbv zeta.
  destruct (main_run env REGION INSTANCE_ID volume_ids_csv w) as (w1 & Htr & _ & _ & _ & ->).
  rewrite locate_volumes_run, Htr. cbv zeta.
  destruct (respond env (trace w) (describe_instances INSTANCE_ID)) as [response|[]];
    rewrite ?process_volumes_returns; by split.
Qed.

(** X9: the fan-out runs a worker on every volume it is given and holds
    one future per volume, in order; each future is a normal return or an
    exit with code 1, and a worker that exits does not keep the workers
    after it from loading their volume. *)
Theorem fan_out_runs_every_worker (env : Env) (INSTANCE_ID : string)
    (all_volumes : list VolumeRef) (w : World) :
  ∃ futures w',
    executor_map (snapshot_and_swap env INSTANCE_ID) all_volumes w = (Returned futures, w')
    ∧ length futures = length all_volumes
    ∧ Forall (fun future => future = Returned tt ∨ future = Exited 1) futures
    ∧ (∃ evs, trace w' = evs ++ trace w)
    ∧ ∀ v, v ∈ all_volumes →
        ∃ raised, {| ev_call := Volume_load (volume_id v); ev_raised := raised |} ∈ trace w'.
Proof.
  assert (∀ vs w0, ∃ futures w',
            executor_map (snapshot_and_swap env INSTANCE_ID) vs w0 = (Returned futures, w')
            ∧ length futures = length vs
            ∧ Forall (fun future => future = Returned tt ∨ future = Exited 1) futures) as Hfut.
  { induction vs as [|x vs IH]; intros w0; cbn [executor_map].
    - eexists _, _. by split_and!.
    - pose proof (snapshot_and_swap_outcome env INSTANCE_ID x w0) as Hx.
      destruct (snapshot_and_swap env INSTANCE_ID x w0) as [future w1]. cbn [fst] in Hx.
      destruct (IH w1) as (futures & w2 & -> & Hlen & Hall).
      eexists _, _. split_and!; [done | by cbn; rewrite Hlen | by constructor]. }
  destruct (Hfut all_volumes w) as (futures & w' & Hrun & Hlen & Hall).
  destruct (executor_map_loads env INSTANCE_ID all_volumes w) as [Hmono Hin].
  rewrite Hrun in Hmono, Hin. exists futures, w'. by split_and!.
Qed.

(** ** More on the tag merger *)

Lemma dict_of_tags_app (tags1 tags2 : list Tag) (d : pydict) :
  dict_of_tags (tags1 ++ tags2) d = dict_of_tags tags2 (dict_of_tags tags1 d).
Proof. unfold dict_of_tags. apply fold_left_app. Qed.

Lemma tags_of_dict_keys (d : pydict) :
  map Key (map (fun kv => {| Key := kv.1; Value := kv.2 |}) d) = d.*1.
Proof. by rewrite map_map. Qed.

Lemma dict_of_tags_of_dict (d : pydict) :
  NoDup d.*1 ->
  dict_of_tags (map (fun kv => {| Key := kv.1; Value := kv.2 |}) d) [] = d.
Proof.
  intros Hd. rewrite dict_of_tags_fresh.
  - rewrite app_nil_l, map_map. rewrite <- (map_id d) at 2. apply map_ext. by intros [].
  - by rewrite tags_of_dict_keys.
Qed.

(** X10: when no key occurs twice in the base tags and the new tags taken
    together, [merge_tags] is concatenation: the base tags in their order,
    then the new tags in theirs. *)
Theorem merge_tags_disjoint_keys (base_tags new_tags : list Tag) :
  NoDup (map Key (base_tags ++ new_tags)) ->
  merge_tags base_tags new_tags = base_tags ++ new_tags.
Proof.
  intros Hd. rewrite map_app in Hd. unfold merge_tags.
  assert (dict_of_tags base_tags [] = map (fun t => (Key t, Value t)) base_tags) as ->.
  { rewrite dict_of_tags_fresh; [done|]. by apply NoDup_app in Hd as (? & _ & _). }
  rewrite dict_of_tags_fresh.
  - rewrite <- map_app, map_map. rewrite <- (map_id (base_tags ++ new_tags)) at 2.
    apply map_ext. by intros [].
  - rewrite <- list_fmap_compose. exact Hd.
Qed.

Lemma merge_tags_disjoint_keys_witness :
  merge_tags [mkTag "Name" "data"; mkTag "Env" "Prod"] [mkTag "SourceSnapshot" "snap-1"]
  = [mkTag "Name" "data"; mkTag "Env" "Prod"; mkTag "SourceSnapshot" "snap-1"].
Proof.
  apply (merge_tags_disjoint_keys [mkTag "Name" "data"; mkTag "Env" "Prod"]
           [mkTag "SourceSnapshot" "snap-1"]).
  vm_compute. repeat (constructor; [set_solver|]). constructor.
Defined.

(** X11: merging in two steps is merging once with the overrides put one
    after the other. *)
Theorem merge_tags_twice (base_tags tags1 tags2 : list Tag) :
  merge_tags (merge_tags base_tags tags1) tags2 = merge_tags base_tags (tags1 ++ tags2).
Proof.
  unfold merge_tags at 1 3. rewrite dict_of_tags_app.
  unfold merge_tags. rewrite dict_of_tags_of_dict; [done|].
  do 2 apply dict_of_tags_NoDup. apply NoDup_nil_2.
Qed.

(** ** More on the swap worker *)

(** As [run_worker], keeping the tag lists: only the clock is abstracted. *)
Ltac abstract_clock_in H :=
  repeat match type of H with
  | context [utcnow_isoformat ?env ?h] =>
      let ts := fresh "timestamp" in
      set (ts := utcnow_isoformat env h) in *; clearbody ts
  end.

Ltac step_full_in H :=
  first [ rewrite try_except_bind in H
        | progress unfold record_old_volume, record_new_volume in H
        | progress cbv [try_except bind] in H ];
  reduce_in H; abstract_clock_in H;
  repeat match type of H with
  | context [respond ?env ?h ?c] =>
      let E := fresh "E" in
      let e := fresh "e" in
      destruct (respond env h c) as [?|e] eqn:E; reduce_in H;
      try match type of H with
          | context [match e with WaiterError _ => _ | _ => _ end] =>
              destruct e; cbv [bind] in H; reduce_in H
          end
  | context [Reservations ?r] =>
      let E := fresh "E" in
      destruct (Reservations r) as [|? ?] eqn:E; cbv [bind] in H; reduce_in H
  | context [Instances ?r] =>
      let E := fresh "E" in
      destruct (Instances r) as [|? ?] eqn:E; cbv [bind] in H; reduce_in H
  end.

Ltac run_worker_full H :=
  unfold snapshot_and_swap in H; cbv [volume_id device_name] in H;
  repeat (step_full_in H; try discriminate H).

(** Every call of a swap that completes, most recent first, with its
    arguments in terms of the volume and the instance that were read. *)
Lemma completed_swap_trace (env : Env) (INSTANCE_ID : string) (volume_info : VolumeRef)
    (w w' : World) :
  snapshot_and_swap env INSTANCE_ID volume_info w = (Returned tt, w') ->
  ∃ volume instance_info snapshot_id new_volume_id before after raised_before raised_after,
    let volume_id := volume_id volume_info in
    let device_name := device_name volume_info in
    let tags := default [] (v_tags volume) in
    respond env (trace w) (Volume_load volume_id) = Ok volume
    ∧ (∃ h description, respond env h (create_snapshot volume_id description) = Ok snapshot_id)
    ∧ (∃ h request, respond env h (create_volume request) = Ok new_volume_id)
    ∧ trace w'
      = [ ok (create_tags volume_id [mkTag "Name" ("OLD-" +:+ PyStr.str_opt volume_id)]);
          ok (attach_volume new_volume_id INSTANCE_ID device_name);
          ok (wait_volume_available volume_id);
          ok (detach_volume volume_id INSTANCE_ID true);
          {| ev_call := new_table_put_item after; ev_raised := raised_after |};
          ok (wait_volume_available (Some new_volume_id));
          ok (create_volume
                {| SnapshotId := snapshot_id;
                   AvailabilityZone := v_availability_zone volume;
                   VolumeType := v_volume_type volume;
                   Encrypted := v_encrypted volume;
                   Iops := or_zero (v_iops volume);
                   Throughput := or_zero (v_throughput volume);
                   Size := v_size volume;
                   KmsKeyId := v_kms_key_id volume;
                   TagSpecifications :=
                     merge_tags tags
                       [mkTag "Name" ("Recreated-" +:+ PyStr.str_opt volume_id);
                        mkTag "SourceSnapshot" snapshot_id] |});
          {| ev_call := old_table_put_item before; ev_raised := raised_before |};
          ok (create_tags (Some snapshot_id)
                (merge_tags tags
                   [mkTag "Name" ("Snapshot-of-" +:+ PyStr.str_opt volume_id);
                    mkTag "device_name" (PyStr.str_opt device_name);
                    mkTag "VolumeType" (v_volume_type volume);
                    mkTag "Size" (pretty (v_size volume));
                    mkTag "IOPS" (pretty (or_zero (v_iops volume)));
                    mkTag "Throughput" (pretty (or_zero (v_throughput volume)));
                    mkTag "AvailabilityZone" (v_availability_zone volume);
                    mkTag "SecurityGroupName"
                      (PyStr.join "," (map GroupName (SecurityGroups instance_info)));
                    mkTag "kms_key_id" (PyStr.str_opt (v_kms_key_id volume))]));
          ok (wait_snapshot_completed snapshot_id);
          ok (create_snapshot volume_id
                ("Snapshot of " +:+ PyStr.str_opt volume_id +:+ " before swap"));
          ok (describe_instances INSTANCE_ID);
          ok (Volume_load volume_id) ] ++ trace w
    ∧ before = {| o_old_volume_id := volume_id;
                  o_name := "OLD-" +:+ PyStr.str_opt volume_id;
                  o_instancename := name_of (Tags instance_info);
                  o_instance_id := INSTANCE_ID;
                  o_devicename := device_name;
                  o_size := v_size volume;
                  o_iops := or_zero (v_iops volume);
                  o_throughput := or_zero (v_throughput volume);
                  o_snapshotid := snapshot_id;
                  o_timestamp := o_timestamp before |}
    ∧ after = {| n_new_volume := new_volume_id;
                 n_source_snapshot := snapshot_id;
                 n_instance_id := INSTANCE_ID;
                 n_instancename := name_of (Tags instance_info);
                 n_devicename := device_name;
                 n_size := v_size volume;
                 n_iops := or_zero (v_iops volume);
                 n_throughput := or_zero (v_throughput volume);
                 n_volume_type := v_volume_type volume;
                 n_availability_zone := v_availability_zone volume;
                 n_security_group_names :=
                   PyStr.join "," (map GroupName (SecurityGroups instance_info));
                 n_timestamp := n_timestamp after |}.
Proof.
  destruct volume_info as [vid dev], w as [tr ot nt out]. intros H.
  run_worker_full H.
  all: injection H as <-.
  all: eexists _, _, _, _, _, _, _, _; cbv zeta; cbn [volume_id device_name trace];
    split_and!; [eassumption | eauto | eauto | reflexivity ..].
Qed.

(** X12: a swap that completes has made the thirteen calls of the worker
    in the order of its body, each of them successful except possibly the
    two audit writes; the old volume is detached with [Force] only after
    the new volume was reported available, and the new volume is attached
    only after the old one was reported available. *)
Theorem completed_swap_steps (env : Env) (INSTANCE_ID : string) (volume_info : VolumeRef)
    (w w' : World) :
  snapshot_and_swap env INSTANCE_ID volume_info w = (Returned tt, w') ->
  ∃ evs new_volume_id after raised_after rest,
    trace w' = evs ++ trace w
    ∧ map (fun ev => call_name (ev_call ev)) (rev evs) = swap_steps
    ∧ Forall (fun ev => ev_raised ev = None ∨ is_audit_write ev) evs
    ∧ evs = ok (create_tags (volume_id volume_info)
                  [mkTag "Name" ("OLD-" +:+ PyStr.str_opt (volume_id volume_info))])
            :: ok (attach_volume new_volume_id INSTANCE_ID (device_name volume_info))
            :: ok (wait_volume_available (volume_id volume_info))
            :: ok (detach_volume (volume_id volume_info) INSTANCE_ID true)
            :: {| ev_call := new_table_put_item after; ev_raised := raised_after |}
            :: ok (wait_volume_available (Some new_volume_id))
            :: rest.
Proof.
  intros H.
  destruct (completed_swap_trace env INSTANCE_ID volume_info w w' H)
    as (volume & instance_info & snapshot_id & new_volume_id & before & after
        & raised_before & raised_after & _ & _ & _ & Htr & _).
  cbv zeta in Htr. eexists _, new_volume_id, after, raised_after, _.
  split_and!; [exact Htr | reflexivity | | reflexivity].
  repeat (constructor; [by (left + right)|]). constructor.
Qed.

Lemma completed_swap_steps_witness :
  ∃ evs new_volume_id after raised_after rest,
    trace (snapshot_and_swap Scenario.after_write_fails "i-1" Scenario.vol2 Scenario.w0).2
    = evs ++ trace Scenario.w0
    ∧ map (fun ev => call_name (ev_call ev)) (rev evs) = swap_steps
    ∧ Forall (fun ev => ev_raised ev = None ∨ is_audit_write ev) evs
    ∧ evs = ok (create_tags (Some "vol-2") [mkTag "Name" "OLD-vol-2"])
            :: ok (attach_volume new_volume_id "i-1" (Some "/dev/sdg"))
            :: ok (wait_volume_available (Some "vol-2"))
            :: ok (detach_volume (Some "vol-2") "i-1" true)
            :: {| ev_call := new_table_put_item after; ev_raised := raised_after |}
            :: ok (wait_volume_available (Some new_volume_id))
            :: rest.
Proof.
  apply (completed_swap_steps Scenario.after_write_fails "i-1" Scenario.vol2 Scenario.w0).
  vm_compute. reflexivity.
Defined.

(** X13: the volume a completed swap creates is requested from the
    snapshot that [create_snapshot] returned for the old volume and whose
    completion was awaited, with the zone, type, size, encryption and key
    of the old volume as loaded at the start, and with its IOPS and
    throughput, 0 standing for a value that is unset. *)
Theorem replacement_volume_keeps_configuration (env : Env) (INSTANCE_ID : string)
    (volume_info : VolumeRef) (w w' : World) :
  snapshot_and_swap env INSTANCE_ID volume_info w = (Returned tt, w') ->
  ∃ evs volume request,
    trace w' = evs ++ trace w
    ∧ respond env (trace w) (Volume_load (volume_id volume_info)) = Ok volume
    ∧ filter is_create_volume evs = [ok (create_volume request)]
    ∧ (∃ h description,
         respond env h (create_snapshot (volume_id volume_info) description)
         = Ok (SnapshotId request))
    ∧ ok (wait_snapshot_completed (SnapshotId request)) ∈ evs
    ∧ AvailabilityZone request = v_availability_zone volume
    ∧ VolumeType request = v_volume_type volume
    ∧ Size request = v_size volume
    ∧ Encrypted request = v_encrypted volume
    ∧ KmsKeyId request = v_kms_key_id volume
    ∧ Iops request = match v_iops volume with Some n => n | None => 0%Z end
    ∧ Throughput request = match v_throughput volume with Some n => n | None => 0%Z end.
Proof.
  intros H.
  destruct (completed_swap_trace env INSTANCE_ID volume_info w w' H)
    as (volume & instance_info & snapshot_id & new_volume_id & before & after
        & raised_before & raised_after & Hload & Hsnap & _ & Htr & _).
  cbv zeta in Htr, Hload, Hsnap. eexists _, volume, _.
  split_and!; [exact Htr | exact Hload | reflexivity | exact Hsnap | | reflexivity ..].
  do 9 apply list_elem_of_further. apply list_elem_of_here.
Qed.

Lemma replacement_volume_keeps_configuration_witness :
  ∃ evs volume request,
    trace (snapshot_and_swap Scenario.happy "i-1" Scenario.vol1 Scenario.w0).2
    = evs ++ trace Scenario.w0
    ∧ respond Scenario.happy (trace Scenario.w0) (Volume_load (Some "vol-1")) = Ok volume
    ∧ filter is_create_volume evs = [ok (create_volume request)]
    ∧ (∃ h description,
         respond Scenario.happy h (create_snapshot (Some "vol-1") description)
         = Ok (SnapshotId request))
    ∧ ok (wait_snapshot_completed (SnapshotId request)) ∈ evs
    ∧ AvailabilityZone request = v_availability_zone volume
    ∧ VolumeType request = v_volume_type volume
    ∧ Size request = v_size volume
    ∧ Encrypted request = v_encrypted volume
    ∧ KmsKeyId request = v_kms_key_id volume
    ∧ Iops request = match v_iops volume with Some n => n | None => 0%Z end
    ∧ Throughput request = match v_throughput volume with Some n => n | None => 0%Z end.
Proof.
  apply (replacement_volume_keeps_configuration Scenario.happy "i-1" Scenario.vol1
           Scenario.w0).
  vm_compute. reflexivity.
Defined.

Lemma tag_map_merge_tags (base_tags new_tags : list Tag) :
  tag_map (merge_tags base_tags new_tags)
  = fold_left (fun m tag => <[Key tag := Value tag]> m) new_tags (tag_map base_tags).
Proof.
  apply map_eq. intros k.
  by rewrite tag_map_lookup, merge_tags_last_value, fold_insert_lookup, tag_map_lookup.
Qed.

(** The entries of a merged tag list are the pairs of the base mapping
    with every override applied. *)
Lemma merge_tags_elem_of (base_tags new_tags : list Tag) (k v : string) :
  mkTag k v ∈ merge_tags base_tags new_tags
  ↔ fold_left (fun m tag => <[Key tag := Value tag]> m) new_tags (tag_map base_tags) !! k
    = Some v.
Proof.
  rewrite <- tag_map_merge_tags, tag_map_lookup.
  apply elem_of_tags_NoDup, merge_tags_NoDup.
Qed.

(** X14: in a swap that completes, the tag list the new volume is created
    with holds each key once, and its entries are exactly the tags of the
    old volume, except that [Name] reads "Recreated-" followed by the old
    volume id and [SourceSnapshot] holds the snapshot id (no entry with the
    old name is left); likewise the tag list of the snapshot holds each key
    once, its entries being the tags of the old volume under the nine
    descriptive keys the worker sets. *)
Theorem replacement_volume_and_snapshot_tags (env : Env) (INSTANCE_ID : string)
    (volume_info : VolumeRef) (w w' : World) :
  snapshot_and_swap env INSTANCE_ID volume_info w = (Returned tt, w') ->
  ∃ evs volume instance_info request snapshot_tags,
    let source := tag_map (default [] (v_tags volume)) in
    let volume_map :=
      <["SourceSnapshot" := SnapshotId request]>
        (<["Name" := "Recreated-" +:+ PyStr.str_opt (volume_id volume_info)]> source) in
    let snapshot_map :=
      <["kms_key_id" := PyStr.str_opt (v_kms_key_id volume)]>
        (<["SecurityGroupName"
           := PyStr.join "," (map GroupName (SecurityGroups instance_info))]>
        (<["AvailabilityZone" := v_availability_zone volume]>
        (<["Throughput" := pretty (or_zero (v_throughput volume))]>
        (<["IOPS" := pretty (or_zero (v_iops volume))]>
        (<["Size" := pretty (v_size volume)]>
        (<["VolumeType" := v_volume_type volume]>
        (<["device_name" := PyStr.str_opt (device_name volume_info)]>
        (<["Name" := "Snapshot-of-" +:+ PyStr.str_opt (volume_id volume_info)]>
           source)))))))) in
    trace w' = evs ++ trace w
    ∧ respond env (trace w) (Volume_load (volume_id volume_info)) = Ok volume
    ∧ ok (create_volume request) ∈ evs
    ∧ ok (create_tags (Some (SnapshotId request)) snapshot_tags) ∈ evs
    ∧ tag_map (TagSpecifications request) = volume_map
    ∧ tag_map snapshot_tags = snapshot_map
    ∧ NoDup (map Key (TagSpecifications request))
    ∧ (∀ k v, mkTag k v ∈ TagSpecifications request ↔ volume_map !! k = Some v)
    ∧ NoDup (map Key snapshot_tags)
    ∧ (∀ k v, mkTag k v ∈ snapshot_tags ↔ snapshot_map !! k = Some v).
Proof.
  intros H.
  destruct (completed_swap_trace env INSTANCE_ID volume_info w w' H)
    as (volume & instance_info & snapshot_id & new_volume_id & before & after
        & raised_before & raised_after & Hload & _ & _ & Htr & _).
  cbv zeta in Htr, Hload. eexists _, volume, instance_info, _, _. cbv zeta.
  split_and!; [exact Htr | exact Hload | | | | | | | |].
  - do 6 apply list_elem_of_further. apply list_elem_of_here.
  - do 8 apply list_elem_of_further. apply list_elem_of_here.
  - cbn [TagSpecifications SnapshotId]. by rewrite tag_map_merge_tags.
  - by rewrite tag_map_merge_tags.
  - cbn [TagSpecifications]. apply merge_tags_NoDup.
  - intros k v. cbn [TagSpecifications SnapshotId]. by rewrite merge_tags_elem_of.
  - apply merge_tags_NoDup.
  - intros k v. by rewrite merge_tags_elem_of.
Qed.

Lemma replacement_volume_and_snapshot_tags_witness :
  ∃ evs volume instance_info request snapshot_tags,
    let source := tag_map (default [] (v_tags volume)) in
    let volume_map :=
      <["SourceSnapshot" := SnapshotId request]>
        (<["Name" := "Recreated-" +:+ PyStr.str_opt (Some "vol-1")]> source) in
    let snapshot_map :=
      <["kms_key_id" := PyStr.str_opt (v_kms_key_id volume)]>
        (<["SecurityGroupName"
           := PyStr.join "," (map GroupName (SecurityGroups instance_info))]>
        (<["AvailabilityZone" := v_availability_zone volume]>
        (<["Throughput" := pretty (or_zero (v_throughput volume))]>
        (<["IOPS" := pretty (or_zero (v_iops volume))]>
        (<["Size" := pretty (v_size volume)]>
        (<["VolumeType" := v_volume_type volume]>
        (<["device_name" := PyStr.str_opt (Some "/dev/sdf")]>
        (<["Name" := "Snapshot-of-" +:+ PyStr.str_opt (Some "vol-1")]>
           source)))))))) in
    trace (snapshot_and_swap Scenario.happy "i-1" Scenario.vol1 Scenario.w0).2 = evs ++ trace Scenario.w0
    ∧ respond Scenario.happy (trace Scenario.w0) (Volume_load (Some "vol-1")) = Ok volume
    ∧ ok (create_volume request) ∈ evs
    ∧ ok (create_tags (Some (SnapshotId request)) snapshot_tags) ∈ evs
    ∧ tag_map (TagSpecifications request) = volume_map
    ∧ tag_map snapshot_tags = snapshot_map
    ∧ NoDup (map Key (TagSpecifications request))
    ∧ (∀ k v, mkTag k v ∈ TagSpecifications request ↔ volume_map !! k = Some v)
    ∧ NoDup (map Key snapshot_tags)
    ∧ (∀ k v, mkTag k v ∈ snapshot_tags ↔ snapshot_map !! k = Some v).
Proof.
  apply (replacement_volume_and_snapshot_tags Scenario.happy "i-1" Scenario.vol1
           Scenario.w0).
  vm_compute. reflexivity.
Defined.

(** X15: the two audit items of a swap that completes agree on the
    instance id, the instance name, the size, the IOPS and the throughput;
    the sizes are those of the old volume as loaded, an unset IOPS or
    throughput is recorded as 0, and the before-item is named "OLD-"
    followed by the old volume id. *)
Theorem audit_items_record_configuration (env : Env) (INSTANCE_ID : string)
    (volume_info : VolumeRef) (w w' : World) :
  snapshot_and_swap env INSTANCE_ID volume_info w = (Returned tt, w') ->
  ∃ evs volume before after raised_before raised_after,
    trace w' = evs ++ trace w
    ∧ respond env (trace w) (Volume_load (volume_id volume_info)) = Ok volume
    ∧ filter is_old_put evs
      = [{| ev_call := old_table_put_item before; ev_raised := raised_before |}]
    ∧ filter is_new_put evs
      = [{| ev_call := new_table_put_item after; ev_raised := raised_after |}]
    ∧ o_name before = "OLD-" +:+ PyStr.str_opt (volume_id volume_info)
    ∧ o_instance_id before = INSTANCE_ID ∧ n_instance_id after = INSTANCE_ID
    ∧ o_instancename before = n_instancename after
    ∧ o_size before = v_size volume ∧ n_size after = v_size volume
    ∧ o_iops before = or_zero (v_iops volume) ∧ n_iops after = or_zero (v_iops volume)
    ∧ o_throughput before = or_zero (v_throughput volume)
    ∧ n_throughput after = or_zero (v_throughput volume)
    ∧ n_volume_type after = v_volume_type volume
    ∧ n_availability_zone after = v_availability_zone volume.
Proof.
  intros H.
  destruct (completed_swap_trace env INSTANCE_ID volume_info w w' H)
    as (volume & instance_info & snapshot_id & new_volume_id & before & after
        & raised_before & raised_after & Hload & _ & _ & Htr & Hb & Ha).
  cbv zeta in Htr, Hload, Hb, Ha. eexists _, volume, before, after, _, _.
  split_and!; [exact Htr | exact Hload | reflexivity | reflexivity | ..].
  all: try rewrite Hb; try rewrite Ha; reflexivity.
Qed.

Lemma audit_items_record_configuration_witness :
  ∃ evs volume before after raised_before raised_after,
    trace (snapshot_and_swap Scenario.happy "i-1" Scenario.vol1 Scenario.w0).2
    = evs ++ trace Scenario.w0
    ∧ respond Scenario.happy (trace Scenario.w0) (Volume_load (Some "vol-1")) = Ok volume
    ∧ filter is_old_put evs
      = [{| ev_call := old_table_put_item before; ev_raised := raised_before |}]
    ∧ filter is_new_put evs
      = [{| ev_call := new_table_put_item after; ev_raised := raised_after |}]
    ∧ o_name before = "OLD-" +:+ PyStr.str_opt (Some "vol-1")
    ∧ o_instance_id before = "i-1" ∧ n_instance_id after = "i-1"
    ∧ o_instancename before = n_instancename after
    ∧ o_size before = v_size volume ∧ n_size after = v_size volume
    ∧ o_iops before = or_zero (v_iops volume) ∧ n_iops after = or_zero (v_iops volume)
    ∧ o_throughput before = or_zero (v_throughput volume)
    ∧ n_throughput after = or_zero (v_throughput volume)
    ∧ n_volume_type after = v_volume_type volume
    ∧ n_availability_zone after = v_availability_zone volume.
Proof.
  apply (audit_items_record_configuration Scenario.happy "i-1" Scenario.vol1 Scenario.w0).
  vm_compute. reflexivity.
Defined.

(** What holds of a run of the worker whatever the replies: one case for
    every call that can raise. *)
Lemma worker_run_facts (env : Env) (INSTANCE_ID : string) (volume_info : VolumeRef)
    (w : World) (r : Outcome unit) (w' : World) (evs : list Event) :
  snapshot_and_swap env INSTANCE_ID volume_info w = (r, w') ->
  trace w' = evs ++ trace w ->
  (map (fun ev => call_name (ev_call ev)) (rev evs) `prefix_of` swap_steps
   ∧ Forall settled (tail evs)
   ∧ (r = Returned tt → length evs = 13 ∧ Forall settled evs)
   ∧ (length evs = 13 → Forall settled evs → r = Returned tt))
  ∧ (r ≠ Returned tt →
     r = Exited 1
     ∧ ∃ e out, stdout w' = PStr (error_line (volume_id volume_info) e) :: out
                ∧ ((∃ c rest, evs = failed c e :: rest ∧ is_audit_write (failed c e) = false)
                   ∨ (e = OtherError "list index out of range"
                      ∧ evs = [ok (describe_instances INSTANCE_ID);
                               ok (Volume_load (volume_id volume_info))])))
  ∧ ((old_table w' = old_table w
      ∨ ∃ item, old_table w' = <[volume_id volume_info := item]> (old_table w)
                ∧ o_old_volume_id item = volume_id volume_info)
     ∧ (new_table w' = new_table w
        ∨ ∃ item, new_table w' = <[n_new_volume item := item]> (new_table w)
                  ∧ ∃ h request, respond env h (create_volume request)
                                 = Ok (n_new_volume item))).
Proof.
  destruct volume_info as [vid dev], w as [tr ot nt out]. intros H Htr.
  run_worker H.
  all: injection H as <- <-; cbn [trace] in Htr; explicit_events Htr.
  all: cbn [stdout old_table new_table volume_id].
  all: split_and!;
    [ eexists; reflexivity
    | cbn [tail]; repeat (constructor; [by (left + right)|]); by constructor
    | intros Hr; first [ discriminate Hr
                       | split; [reflexivity|];
                         repeat (constructor; [by (left + right)|]); by constructor ]
    | intros HL HF; first [ discriminate HL
                          | reflexivity
                          | apply Forall_cons in HF as [[?|?] _]; done ]
    | first [ solve [intros Hne; exfalso; apply Hne; reflexivity] | intros Hne; split; [reflexivity|];
      lazymatch goal with
      | |- ∃ e out, PStr ("[ERROR] Waiter failed for volume " +:+ _ +:+ ": " +:+ ?m) :: _
                    = _ ∧ _ => exists (WaiterError m)
      | |- ∃ e out, PStr ("[ERROR] AWS client error on volume " +:+ _ +:+ ": " +:+ ?m) :: _
                    = _ ∧ _ => exists (ClientError m)
      | |- ∃ e out, PStr ("[ERROR] Unexpected error on volume " +:+ _ +:+ ": " +:+ ?m) :: _
                    = _ ∧ _ => exists (OtherError m)
      end;
      eexists; split; [reflexivity|];
      first [ left; eexists _, _; split; reflexivity | right; split; reflexivity ] ]
    | first [ left; reflexivity | right; eexists; split; reflexivity ]
    | first [ left; reflexivity
                | lazymatch goal with
                  | |- _ ∨ (∃ item, <[_ := ?it]> _ = _ ∧ _) =>
                      right; exists it; split; [reflexivity | cbn [n_new_volume]; eauto]
                  end ] ].

Qed.








(** X16: whatever the replies, the calls a worker makes are an initial
    part of the thirteen steps of its body, in their order, and every call
    before the most recent one succeeded or was an audit write: the worker
    stops at the first other call that raises.  It returns exactly when all
    thirteen calls were made and none but an audit write raised. *)
Theorem worker_stops_at_first_failure (env : Env) (INSTANCE_ID : string)
    (volume_info : VolumeRef) (w : World) (r : Outcome unit) (w' : World)
    (evs : list Event) :
  snapshot_and_swap env INSTANCE_ID volume_info w = (r, w') ->
  trace w' = evs ++ trace w ->
  map (fun ev => call_name (ev_call ev)) (rev evs) `prefix_of` swap_steps
  ∧ Forall settled (tail evs)
  ∧ (r = Returned tt → length evs = 13 ∧ Forall settled evs)
  ∧ (length evs = 13 → Forall settled evs → r = Returned tt).
Proof.
  intros H Htr. exact (proj1 (worker_run_facts env INSTANCE_ID volume_info w r w' evs H Htr)).
Qed.

Lemma worker_stops_at_first_failure_witness :
  let run := snapshot_and_swap Scenario.snapshot_wait_times_out "i-1" Scenario.vol1
               Scenario.w0 in
  map (fun ev => call_name (ev_call ev)) (rev (trace run.2)) `prefix_of` swap_steps
  ∧ Forall settled (tail (trace run.2))
  ∧ (run.1 = Returned tt → length (trace run.2) = 13 ∧ Forall settled (trace run.2))
  ∧ (length (trace run.2) = 13 → Forall settled (trace run.2) → run.1 = Returned tt).
Proof.
  apply (worker_stops_at_first_failure Scenario.snapshot_wait_times_out "i-1"
           Scenario.vol1 Scenario.w0 _
           (snapshot_and_swap Scenario.snapshot_wait_times_out "i-1" Scenario.vol1
              Scenario.w0).2).
  - vm_compute. reflexivity.
  - vm_compute. reflexivity.
Defined.

(** X17: a worker that does not return exits with code 1, and the last
    line it printed is the error line of the class of the exception, with
    the id of its volume and the text of the exception; the exception is
    the one the most recent call raised, that call being no audit write,
    or the index error of a lookup that answered without an instance. *)
Theorem failed_worker_reports_its_volume (env : Env) (INSTANCE_ID : string)
    (volume_info : VolumeRef) (w : World) (r : Outcome unit) (w' : World)
    (evs : list Event) :
  snapshot_and_swap env INSTANCE_ID volume_info w = (r, w') ->
  trace w' = evs ++ trace w ->
  r ≠ Returned tt ->
  r = Exited 1
  ∧ ∃ e out, stdout w' = PStr (error_line (volume_id volume_info) e) :: out
             ∧ ((∃ c rest, evs = failed c e :: rest ∧ is_audit_write (failed c e) = false)
                ∨ (e = OtherError "list index out of range"
                   ∧ evs = [ok (describe_instances INSTANCE_ID);
                            ok (Volume_load (volume_id volume_info))])).
Proof.
  intros H Htr.
  exact (proj1 (proj2 (worker_run_facts env INSTANCE_ID volume_info w r w' evs H Htr))).
Qed.

Lemma failed_worker_reports_its_volume_witness :
  let run := snapshot_and_swap Scenario.snapshot_rejected "i-1" Scenario.vol1 Scenario.w0 in
  run.1 = Exited 1
  ∧ ∃ e out, stdout run.2 = PStr (error_line (Some "vol-1") e) :: out
             ∧ ((∃ c rest, trace run.2 = failed c e :: rest
                           ∧ is_audit_write (failed c e) = false)
                ∨ (e = OtherError "list index out of range"
                   ∧ trace run.2 = [ok (describe_instances "i-1");
                                    ok (Volume_load (Some "vol-1"))])).
Proof.
  apply (failed_worker_reports_its_volume Scenario.snapshot_rejected "i-1" Scenario.vol1
           Scenario.w0).
  - vm_compute. reflexivity.
  - vm_compute. reflexivity.
  - vm_compute. discriminate.
Defined.

(** X18: whatever its outcome, a worker changes at most one row of each
    audit table: the before-row under the id of its own volume, every
    other key of that table reading as before, and the after-row under the
    id [create_volume] returned to it. *)
Theorem worker_writes_only_its_rows (env : Env) (INSTANCE_ID : string)
    (volume_info : VolumeRef) (w : World) (r : Outcome unit) (w' : World) :
  snapshot_and_swap env INSTANCE_ID volume_info w = (r, w') ->
  (old_table w' = old_table w
   ∨ ∃ item, old_table w' = <[volume_id volume_info := item]> (old_table w)
             ∧ o_old_volume_id item = volume_id volume_info)
  ∧ (∀ k, k ≠ volume_id volume_info → old_table w' !! k = old_table w !! k)
  ∧ (new_table w' = new_table w
     ∨ ∃ item, new_table w' = <[n_new_volume item := item]> (new_table w)
               ∧ ∃ h request, respond env h (create_volume request)
                              = Ok (n_new_volume item)).
Proof.
  intros H.
  destruct (snapshot_and_swap_loads env INSTANCE_ID volume_info w) as (evs & raised & Htr).
  rewrite H in Htr. cbn [snd] in Htr.
  rewrite cons_middle, app_assoc in Htr.
  destruct (worker_run_facts env INSTANCE_ID volume_info w r w' _ H Htr)
    as (_ & _ & Hold & Hnew).
  split_and!; [exact Hold | | exact Hnew].
  intros k Hk. destruct Hold as [->|(item & -> & _)]; [done|].
  by rewrite lookup_insert_ne.
Qed.

Lemma worker_writes_only_its_rows_witness :
  let run := snapshot_and_swap Scenario.happy "i-1" Scenario.vol1 Scenario.w0 in
  (old_table run.2 = old_table Scenario.w0
   ∨ ∃ item, old_table run.2 = <[Some "vol-1" := item]> (old_table Scenario.w0)
             ∧ o_old_volume_id item = Some "vol-1")
  ∧ (∀ k, k ≠ Some "vol-1" → old_table run.2 !! k = old_table Scenario.w0 !! k)
  ∧ (new_table run.2 = new_table Scenario.w0
     ∨ ∃ item, new_table run.2 = <[n_new_volume item := item]> (new_table Scenario.w0)
               ∧ ∃ h request, respond Scenario.happy h (create_volume request)
                              = Ok (n_new_volume item)).
Proof.
  apply (worker_writes_only_its_rows Scenario.happy "i-1" Scenario.vol1 Scenario.w0
           (Returned tt)).
  vm_compute. reflexivity.
Defined.

(** ** The bootstrap of the audit tables *)

Section BootstrapFacts.

Import Bootstrap.

(** The events one call of [create_table_if_not_exists] adds, by cases. *)
Lemma create_table_if_not_exists_run (env : TableEnv) (table_name key_name : string)
    (w : BootWorld) :
  let run := create_table_if_not_exists env table_name key_name w in
  let request := {| TableName := table_name; KeySchema := [(key_name, "HASH")];
                    AttributeDefinitions := [(key_name, "S")];
                    ReadCapacityUnits := 26; WriteCapacityUnits := 26 |} in
  (∃ e, table_respond env (table_trace w) list_tables = Fail e
        ∧ table_trace run.2 = {| t_call := list_tables; t_raised := Some e |} :: table_trace w
        ∧ run.1 = (except_ClientError table_name e w).1)
  ∨ (∃ names, table_respond env (table_trace w) list_tables = Ok names
              ∧ table_name ∈ names
              ∧ table_trace run.2
                = {| t_call := list_tables; t_raised := None |} :: table_trace w
              ∧ run.1 = Returned tt)
  ∨ (∃ names raised,
       table_respond env (table_trace w) list_tables = Ok names
       ∧ table_name ∉ names
       ∧ table_trace run.2
         = {| t_call := create_table request; t_raised := raised |}
           :: {| t_call := list_tables; t_raised := None |} :: table_trace w
       ∧ match raised with
         | None => run.1 = Returned tt
         | Some e => run.1 = (except_ClientError table_name e w).1
         end).
Proof.
  cbv zeta. unfold create_table_if_not_exists.
  destruct (table_respond env (table_trace w) list_tables) as [names|e] eqn:Hlist.
  - right. case_bool_decide as Hin.
    + left. exists names. by split_and!.
    + right. cbn [called table_trace].
      destruct (table_respond env _ (create_table _)) as [[]|e] eqn:Hcreate.
      * exists names, None. by split_and!.
      * exists names, (Some e). split_and!; [done..| |]; by destruct e.
  - left. exists e. split_and!; [done| |]; by destruct e.
Qed.

Lemma catalogue_truthful : truthful catalogue.
Proof.
  intros h names ev [= <-] Hev name Hname. unfold created_names.
  apply list_elem_of_omap. exists ev. split; [done|].
  unfold is_creation in Hname.
  destruct (t_call ev) as [|request]; [done|]. destruct (t_raised ev); [done|].
  by apply bool_decide_eq_true in Hname as ->.
Qed.

End BootstrapFacts.

Lemma filter_none {A} (P : A -> Prop) `{!∀ x, Decision (P x)} (l : list A) :
  (∀ x, x ∈ l → ¬ P x) -> filter P l = [].
Proof.
  induction l as [|x l IH]; intros Hl; [done|].
  rewrite filter_cons_False by (apply Hl; by left).
  apply IH. intros y Hy. apply Hl. by right.
Qed.

(** X19: [create_table_if_not_exists] never lets a [ClientError] through:
    it returns, or raises something that is no [ClientError]; it asks for
    the table names once and then makes at most one [create_table] call,
    for the table it was given, with the key as [HASH] key of string type
    and 26 units of read and of write capacity, and makes none when the
    table is listed. *)
Theorem create_table_if_not_exists_contract (env : Bootstrap.TableEnv)
    (table_name key_name : string) (w : Bootstrap.BootWorld) :
  let run := Bootstrap.create_table_if_not_exists env table_name key_name w in
  (run.1 = Returned tt ∨ ∃ e, run.1 = Raised e ∧ ∀ msg, e ≠ ClientError msg)
  ∧ ∃ evs,
      Bootstrap.table_trace run.2 = evs ++ Bootstrap.table_trace w
      ∧ (∃ raised, last evs = Some {| Bootstrap.t_call := Bootstrap.list_tables;
                                      Bootstrap.t_raised := raised |})
      ∧ (length evs ≤ 2)%nat
      ∧ (∀ ev, ev ∈ evs → Bootstrap.is_create_table ev = true →
           Bootstrap.t_call ev
           = Bootstrap.create_table
               {| Bootstrap.TableName := table_name;
                  Bootstrap.KeySchema := [(key_name, "HASH")];
                  Bootstrap.AttributeDefinitions := [(key_name, "S")];
                  Bootstrap.ReadCapacityUnits := 26;
                  Bootstrap.WriteCapacityUnits := 26 |})
      ∧ (∀ names, Bootstrap.table_respond env (Bootstrap.table_trace w) Bootstrap.list_tables
                  = Ok names →
                  table_name ∈ names →
                  Forall (fun ev => Bootstrap.is_create_table ev = false) evs
                  ∧ run.1 = Returned tt).
Proof.
  cbv zeta.
  destruct (create_table_if_not_exists_run env table_name key_name w)
    as [(e & Hl & Htr & Hr)|[(names & Hl & Hin & Htr & Hr)|(names & raised & Hl & Hin & Htr & Hr)]];
    cbv zeta in *.
  - split.
    + rewrite Hr. destruct e; cbn; eauto.
    + eexists [_]. rewrite Htr. split_and!; [done | by eexists | cbn; lia | |].
      * intros ev ->%list_elem_of_singleton [=].
      * intros names. by rewrite Hl.
  - split; [by left|].
    eexists [_]. rewrite Htr. split_and!; [done | by eexists | cbn; lia | |].
    + intros ev ->%list_elem_of_singleton [=].
    + intros _ _ _. split; [by repeat constructor | done].
  - split.
    + destruct raised as [e|]; [|by left]. rewrite Hr. destruct e; cbn; eauto.
    + eexists [_; _]. rewrite Htr. split_and!; [done | by eexists | cbn; lia | |].
      * intros ev [->|[->|[]%elem_of_nil]%elem_of_cons]%elem_of_cons; [done | intros [=]].
      * intros names' Hl' Hin'. rewrite Hl in Hl'. by injection Hl' as <-.
Qed.

(** X20: against a catalogue that lists every table whose creation
    succeeded, no table is created twice: if the history holds at most one
    successful creation of each table, so does the history after
    [create_table_if_not_exists], and after the bootstrap of the two audit
    tables, however often they are run. *)
Theorem no_table_is_created_twice (env : Bootstrap.TableEnv) (w : Bootstrap.BootWorld) :
  Bootstrap.truthful env ->
  (∀ name, (length (filter (Bootstrap.is_creation name) (Bootstrap.table_trace w)) ≤ 1)%nat) ->
  (∀ table_name key_name name,
     (length (filter (Bootstrap.is_creation name)
               (Bootstrap.table_trace
                  (Bootstrap.create_table_if_not_exists env table_name key_name w).2)) ≤ 1)%nat)
  ∧ (∀ name,
       (length (filter (Bootstrap.is_creation name)
                 (Bootstrap.table_trace (Bootstrap.bootstrap env w).2)) ≤ 1)%nat)
  ∧ (∀ name,
       (length (filter (Bootstrap.is_creation name)
                 (Bootstrap.table_trace
                    (Bootstrap.bootstrap env (Bootstrap.bootstrap env w).2).2)) ≤ 1)%nat).
Proof.
  intros Henv.
  assert (∀ w0 table_name key_name,
            (∀ name, (length (filter (Bootstrap.is_creation name)
                               (Bootstrap.table_trace w0)) ≤ 1)%nat) →
            ∀ name, (length (filter (Bootstrap.is_creation name)
                              (Bootstrap.table_trace
                                 (Bootstrap.create_table_if_not_exists env table_name
                                    key_name w0).2)) ≤ 1)%nat) as Hone.
  { intros w0 table_name key_name Hw0 name.
    destruct (create_table_if_not_exists_run env table_name key_name w0)
      as [(e & Hl & Htr & _)|[(names & Hl & Hin & Htr & _)
                             |(names & raised & Hl & Hin & Htr & _)]];
      cbv zeta in *; rewrite Htr.
    - rewrite filter_cons_False by (intros Hc; by cbv in Hc). apply Hw0.
    - rewrite filter_cons_False by (intros Hc; by cbv in Hc). apply Hw0.
    - destruct raised as [e|].
      + rewrite !filter_cons_False by (intros Hc; by cbv in Hc). apply Hw0.
      + destruct (decide (table_name = name)) as [->|Hne].
        * rewrite filter_cons_True by (cbn; by rewrite bool_decide_eq_true_2).
          rewrite filter_cons_False by (intros Hc; by cbv in Hc).
          assert (filter (Bootstrap.is_creation name) (Bootstrap.table_trace w0) = [])
            as ->; [|cbn; lia].
          apply filter_none. intros ev Hev Hcre.
          apply Hin. apply (Henv _ _ ev Hl Hev). by apply Is_true_true.
        * rewrite filter_cons_False
            by (intros Hc; cbn in Hc; by apply bool_decide_unpack in Hc).
          rewrite filter_cons_False by (intros Hc; by cbv in Hc). apply Hw0. }
  assert (∀ w0, (∀ name, (length (filter (Bootstrap.is_creation name)
                                   (Bootstrap.table_trace w0)) ≤ 1)%nat) →
                ∀ name, (length (filter (Bootstrap.is_creation name)
                                  (Bootstrap.table_trace (Bootstrap.bootstrap env w0).2)) ≤ 1)%nat)
    as Hboot.
  { intros w0 Hw0 name. unfold Bootstrap.bootstrap.
    pose proof (Hone w0 OLD_TABLE_NAME "old_volume_id" Hw0) as H1.
    destruct (Bootstrap.create_table_if_not_exists env OLD_TABLE_NAME "old_volume_id" w0)
      as [[[]|e|n] w1]; cbn [snd] in H1; [|apply H1..].
    by apply Hone. }
  intros Hw. split_and!.
  - intros table_name key_name. by apply Hone.
  - by apply Hboot.
  - by apply Hboot, Hboot.
Qed.

Lemma no_table_is_created_twice_witness :
  (∀ table_name key_name name,
     (length (filter (Bootstrap.is_creation name)
               (Bootstrap.table_trace
                  (Bootstrap.create_table_if_not_exists Bootstrap.catalogue table_name
                     key_name Bootstrap.fresh).2)) ≤ 1)%nat)
  ∧ (∀ name,
       (length (filter (Bootstrap.is_creation name)
                 (Bootstrap.table_trace
                    (Bootstrap.bootstrap Bootstrap.catalogue Bootstrap.fresh).2)) ≤ 1)%nat)
  ∧ (∀ name,
       (length (filter (Bootstrap.is_creation name)
                 (Bootstrap.table_trace
                    (Bootstrap.bootstrap Bootstrap.catalogue
                       (Bootstrap.bootstrap Bootstrap.catalogue Bootstrap.fresh).2).2)) ≤ 1)%nat).
Proof.
  apply (no_table_is_created_twice Bootstrap.catalogue Bootstrap.fresh).
  - exact catalogue_truthful.
  - intros name. cbn. lia.
Defined.

(** X21: when the control plane fails only with [ClientError], the
    bootstrap returns and has asked for the table names twice, once for
    each audit table: a refusal on the first table does not keep the second
    from being attempted. *)
Theorem bootstrap_attempts_both_tables (env : Bootstrap.TableEnv) (w : Bootstrap.BootWorld) :
  (∀ h c e, Bootstrap.table_respond env h c = Fail e → ∃ msg, e = ClientError msg) ->
  (Bootstrap.bootstrap env w).1 = Returned tt
  ∧ ∃ evs, Bootstrap.table_trace (Bootstrap.bootstrap env w).2
           = evs ++ Bootstrap.table_trace w
           ∧ length (filter (fun ev => Bootstrap.is_create_table ev = false) evs) = 2.
Proof.
  intros Henv.
  assert (∀ w0 table_name key_name,
            (Bootstrap.create_table_if_not_exists env table_name key_name w0).1 = Returned tt
            ∧ ∃ evs, Bootstrap.table_trace
                       (Bootstrap.create_table_if_not_exists env table_name key_name w0).2
                     = evs ++ Bootstrap.table_trace w0
                     ∧ length (filter (fun ev => Bootstrap.is_create_table ev = false) evs)
                       = 1) as Hone.
  { intros w0 table_name key_name.
    destruct (create_table_if_not_exists_run env table_name key_name w0)
      as [(e & Hl & Htr & Hr)|[(names & Hl & Hin & Htr & Hr)
                              |(names & raised & Hl & Hin & Htr & Hr)]];
      cbv zeta in *; rewrite Htr.
    - destruct (Henv _ _ _ Hl) as [msg ->]. split; [by rewrite Hr|]. eexists [_]; by split.
    - split; [done|]. eexists [_]; by split.
    - split; [|eexists [_; _]; by split].
      destruct raised as [e|]; [|done]. rewrite Hr.
      assert (∃ msg, e = ClientError msg) as [msg ->]; [|done].
      unfold Bootstrap.create_table_if_not_exists in Htr. rewrite Hl in Htr.
      rewrite bool_decide_eq_false_2 in Htr by done. cbn [Bootstrap.called] in Htr.
      cbn [Bootstrap.table_trace] in Htr.
      destruct (Bootstrap.table_respond env _ (Bootstrap.create_table _)) as [[]|e'] eqn:Hc.
      + by injection Htr.
      + destruct (Henv _ _ _ Hc) as [msg ->]. cbn in Htr. injection Htr as <-. by exists msg. }
  unfold Bootstrap.bootstrap.
  destruct (Hone w OLD_TABLE_NAME "old_volume_id") as (Hr1 & evs1 & Htr1 & Hn1).
  destruct (Bootstrap.create_table_if_not_exists env OLD_TABLE_NAME "old_volume_id" w)
    as [r1 w1]. cbn [fst snd] in Hr1, Htr1. subst r1.
  destruct (Hone w1 NEW_TABLE_NAME "new_volume") as (Hr2 & evs2 & Htr2 & Hn2).
  split; [done|]. exists (evs2 ++ evs1).
  rewrite Htr2, Htr1, filter_app, length_app, Hn1, Hn2, app_assoc. done.
Qed.

Lemma bootstrap_attempts_both_tables_witness :
  (Bootstrap.bootstrap Bootstrap.denied Bootstrap.fresh).1 = Returned tt
  ∧ ∃ evs, Bootstrap.table_trace (Bootstrap.bootstrap Bootstrap.denied Bootstrap.fresh).2
           = evs ++ Bootstrap.table_trace Bootstrap.fresh
           ∧ length (filter (fun ev => Bootstrap.is_create_table ev = false) evs) = 2.
Proof.
  apply (bootstrap_attempts_both_tables Bootstrap.denied Bootstrap.fresh).
  intros h c e [= <-]. by eexists.
Defined.
